(** * The generation abstraction of the generational heap

    A shallow embedding of [hotspot/src/share/vm/memory/generation.cpp]:
    the generic algorithms of class [Generation] over the spaces it owns
    (containment and block queries), the cross-generation capacity check,
    the promotion protocol and the three compaction passes, followed by the
    properties the specification states about them.

    Conventions.
    - Addresses ([HeapWord*], [oop], [void*], [Space*] used as keys) are byte
      addresses in [Z]; [NULL] is [0]; [p + n] on a [HeapWord*] advances by
      [n * HeapWordSize] bytes.
    - [size_t] values are in [N]; the only arithmetic the file performs on
      them is comparison.
    - Mutable program state is the [World]: the contents of memory and the
      lines written to the GC log.  A member function that may mutate it, or
      abort the VM, is a computation in the monad [M].
    - Pure virtual member functions of [Generation] and the member functions
      of the external classes ([Space], [CompactibleSpace], the heap
      singleton) are fields of records: the algorithms are generic in them.
    - Loops over linked objects take a budget [fuel] of iterations.
    The printing functions, [spec()] and the oop and object iterators of the
    file are left out: no property below depends on them. *)

From Stdlib Require Import ZArith NArith List String Bool Lia DecimalString.
Import ListNotations.

Open Scope Z_scope.

(** ** Build and run-time configuration *)

(** The compile-time switches and the global flags the file reads.
    [ASSERT] says whether [assert(...)] is compiled in, [PRODUCT] whether the
    [#ifndef PRODUCT] blocks are compiled out. *)
Class VMConfig : Type := {
  HeapWordSize : Z;
  HeapWordSize_pos : 0 < HeapWordSize;
  ASSERT : bool;
  PRODUCT : bool;
  ZapUnusedHeapArea : bool;
  PrintGC : bool;
  Verbose : bool
}.

Definition NULL : Z := 0.

(** ** Program state and the monad of member functions *)

Record World : Type := {
  mem : Z -> Z;            (* the word stored at each (word-aligned) address *)
  gclog : list string      (* lines printed on gclog_or_tty, oldest first *)
}.

(** How a call ends: it returns, the VM aborts (a failed assertion,
    [vm_exit_during_initialization], [ShouldNotCallThis]), or the loop
    budget of the model is used up. *)
Inductive outcome (A : Type) : Type :=
| Done (a : A)
| Fatal (msg : string)
| OutOfFuel.

Arguments Done {A} a.
Arguments Fatal {A} msg.
Arguments OutOfFuel {A}.

Definition M (A : Type) : Type := World -> outcome (A * World).

Definition ret {A} (a : A) : M A := fun w => Done (a, w).

Definition bind {A B} (c : M A) (k : A -> M B) : M B :=
  fun w =>
    match c w with
    | Done (a, w') => k a w'
    | Fatal msg => Fatal msg
    | OutOfFuel => OutOfFuel
    end.

Declare Scope gen_scope.
Delimit Scope gen_scope with gen.
Notation "x <- c ;; k" := (bind c (fun x => k))
  (at level 61, c at next level, right associativity) : gen_scope.
Notation "c ;; k" := (bind c (fun _ => k))
  (at level 61, right associativity) : gen_scope.
Open Scope gen_scope.

(** A [const] query: reads the world, leaves it as it is. *)
Definition query {A} (f : World -> A) : M A := fun w => Done (f w, w).

Definition fatal {A} (msg : string) : M A := fun _ => Fatal msg.

Definition out_of_fuel {A} : M A := fun _ => OutOfFuel.

(** [print_cr] on the GC log. *)
Definition print_cr (line : string) : M unit :=
  fun w => Done (tt, {| mem := mem w; gclog := gclog w ++ [line] |}).

(** Modelled from the spec: the [assert] macro of utilities/debug.hpp is not
    among the sources.  A violated assertion aborts the VM; the check exists
    only where assertions are compiled in. *)
Definition assert {cfg : VMConfig} (cond : bool) (msg : string) : M unit :=
  if ASSERT && negb cond then fatal msg else ret tt.

(** Modelled from the spec: [vm_exit_during_initialization] of
    runtime/java.hpp is not among the sources.  It reports the message and
    aborts the start of the process. *)
Definition vm_exit_during_initialization {A} (msg : string) : M A := fatal msg.

(** Modelled from the spec: the [ShouldNotCallThis()] macro of
    utilities/debug.hpp is not among the sources; the specification describes
    a call of an unimplemented capability as failing fatally and immediately,
    in every build. *)
Definition ShouldNotCallThis : M unit := fatal "ShouldNotCallThis()".

(** Runs [f] on each element, left to right. *)
Fixpoint for_each {A} (f : A -> M unit) (l : list A) : M unit :=
  match l with
  | [] => ret tt
  | x :: l' => f x ;; for_each f l'
  end.

(** [SIZE_FORMAT]. *)
Definition SIZE_FORMAT (n : N) : string := NilZero.string_of_uint (N.to_uint n).

(** [(size_t) i] for an [int] or pointer difference [i]. *)
Definition size_t_of_int {cfg : VMConfig} (i : Z) : N := Z.to_N (i mod 2 ^ (8 * HeapWordSize)).

(** ** Memory regions and the virtual space *)

(** Modelled from the spec: class [MemRegion] (memory/memRegion.hpp) is not
    among the sources.  An address range [[start, end_)] of heap words. *)
Record MemRegion : Type := {
  start : Z;
  end_ : Z
}.

(** Modelled from the spec: [MemRegion::word_size], the number of heap
    words of the range. *)
Definition word_size {cfg : VMConfig} (r : MemRegion) : N :=
  size_t_of_int ((end_ r - start r) / HeapWordSize).

(** Modelled from the spec: [MemRegion::byte_size], the size of the range in
    bytes. *)
Definition byte_size {cfg : VMConfig} (r : MemRegion) : N :=
  size_t_of_int (Z.of_N (word_size r) * HeapWordSize).

(** Modelled from the spec: [MemRegion::is_empty]. *)
Definition is_empty {cfg : VMConfig} (r : MemRegion) : bool := (word_size r =? 0)%N.

(** Modelled from the spec: class [ReservedSpace] is not among the sources.
    The maximum reservable range handed to the constructor. *)
Record ReservedSpace : Type := {
  base : Z;
  rs_size : N
}.

(** Modelled from the spec: class [VirtualSpace] is not among the sources.
    The boundary queries the file uses: the committed part is [[low, high)],
    inside [[low_boundary, high_boundary)]. *)
Record VirtualSpace : Type := {
  low_boundary : Z;
  high_boundary : Z;
  low : Z;
  high : Z
}.

(** ** Spaces *)

(** The member functions of [Space] that [Generation] calls; class [Space]
    itself is not among the sources, so they are fields a concrete space
    fills in.  The queries are [const]; they read the current world. *)
Module Space.
Record t : Type := {
  is_in_reserved : World -> Z -> bool;
  is_in : World -> Z -> bool;
  block_start : World -> Z -> Z;
  block_size : World -> Z -> N;
  block_is_obj : World -> Z -> bool;
  adjust_pointers : M unit
}.
End Space.

(** A [CompactibleSpace] is a [Space] with a successor link and the two
    passes that only compactible spaces have.  [prepare_for_compaction]
    receives the pointer to the shared [CompactPoint]. *)
Module CompactibleSpace.
Record t : Type := {
  as_Space : Space.t;
  _next_compaction_space : Z;
  prepare_for_compaction : Z -> M unit;
  compact : M unit
}.
Definition next_compaction_space (s : t) : Z := _next_compaction_space s.
End CompactibleSpace.

(** ** The space closures *)

Module GenerationIsInReservedClosure.
Record t : Type := { _p : Z; sp : option Space.t }.
Definition new (p : Z) : t := {| _p := p; sp := None |}.
Definition do_space (s : Space.t) (blk : t) : M t :=
  query (fun w =>
    match sp blk with
    | None => if Space.is_in_reserved s w (_p blk)
              then {| _p := _p blk; sp := Some s |} else blk
    | Some _ => blk
    end).
End GenerationIsInReservedClosure.

Module GenerationIsInClosure.
Record t : Type := { _p : Z; sp : option Space.t }.
Definition new (p : Z) : t := {| _p := p; sp := None |}.
Definition do_space (s : Space.t) (blk : t) : M t :=
  query (fun w =>
    match sp blk with
    | None => if Space.is_in s w (_p blk)
              then {| _p := _p blk; sp := Some s |} else blk
    | Some _ => blk
    end).
End GenerationIsInClosure.

Module GenerationBlockStartClosure.
Record t : Type := { _p : Z; _start : Z }.
Definition new (p : Z) : t := {| _p := p; _start := NULL |}.
Definition do_space (s : Space.t) (blk : t) : M t :=
  query (fun w =>
    if (_start blk =? NULL) && Space.is_in_reserved s w (_p blk)
    then {| _p := _p blk; _start := Space.block_start s w (_p blk) |}
    else blk).
End GenerationBlockStartClosure.

Module GenerationBlockSizeClosure.
Record t : Type := { _p : Z; size : N }.
Definition new (p : Z) : t := {| _p := p; size := 0%N |}.
Definition do_space (s : Space.t) (blk : t) : M t :=
  query (fun w =>
    if (size blk =? 0)%N && Space.is_in_reserved s w (_p blk)
    then {| _p := _p blk; size := Space.block_size s w (_p blk) |}
    else blk).
End GenerationBlockSizeClosure.

Module GenerationBlockIsObjClosure.
Record t : Type := { _p : Z; is_obj : bool }.
Definition new (p : Z) : t := {| _p := p; is_obj := false |}.
Definition do_space (s : Space.t) (blk : t) : M t :=
  query (fun w =>
    if negb (is_obj blk) && Space.is_in_reserved s w (_p blk)
    then {| _p := _p blk; is_obj := is_obj blk || Space.block_is_obj s w (_p blk) |}
    else blk).
End GenerationBlockIsObjClosure.

Module AdjustPointersClosure.
Definition do_space (s : Space.t) (blk : unit) : M unit := Space.adjust_pointers s.
End AdjustPointersClosure.

(** ** Generations and the heap *)

(** The pure virtual member functions of [Generation] that the file calls;
    a concrete generation supplies them.  [spaces usedOnly] lists, in order,
    the spaces to which [space_iterate(blk, usedOnly)] applies
    [blk->do_space]. *)
Record GenerationImpl : Type := {
  contiguous_available : World -> N;
  allocate : N -> bool -> M Z;
  spaces : bool -> list Space.t;
  first_compaction_space : Z
}.

(** The data members of [Generation] that the file uses, and the dynamic
    type of the object. *)
Record Generation : Type := {
  _level : Z;
  _ref_processor : Z;
  _virtual_space : VirtualSpace;
  _reserved : MemRegion;
  impl :> GenerationImpl
}.

Definition level (g : Generation) : Z := _level g.
Definition reserved (g : Generation) : MemRegion := _reserved g.

(** What the file asks of the heap singleton ([GenCollectedHeap::heap()],
    [Universe::heap()]). *)
Record GenCollectedHeap : Type := {
  old_gen : option Generation;
  promotion_should_fail : M bool;
  handle_failed_promotion : Generation -> Z -> N -> M Z
}.

(** The remaining collaborators: [obj->size()], the object a
    [CompactibleSpace*] points to, [VirtualSpace::initialize] (with [None]
    for [false]), [SpaceMangler::mangle_region] and
    [new ReferenceProcessor(span)] (which returns [NULL] when the allocation
    fails). *)
Record Runtime : Type := {
  oop_size : World -> Z -> Z;
  compactible_space_at : Z -> CompactibleSpace.t;
  VirtualSpace_initialize : ReservedSpace -> N -> option VirtualSpace;
  mangle_region : MemRegion -> M unit;
  new_ReferenceProcessor : MemRegion -> M Z
}.

(** ** [Copy::aligned_disjoint_words] *)

Module Copy.
Section Copy.
Context {cfg : VMConfig}.

(** Modelled from the spec: "word-aligned". *)
Definition aligned (p : Z) : bool := p mod HeapWordSize =? 0.

(** Modelled from the spec: "non-overlapping", for two blocks of [count]
    words. *)
Definition disjoint (from to : Z) (count : N) : bool :=
  (from + Z.of_N count * HeapWordSize <=? to) || (to + Z.of_N count * HeapWordSize <=? from).

(** Modelled from the spec: the copy itself, word by word, on the contents
    of memory. *)
Fixpoint copy_words (from to : Z) (count : nat) (m : Z -> Z) : Z -> Z :=
  match count with
  | O => m
  | S count' =>
      copy_words (from + HeapWordSize) (to + HeapWordSize) count'
                 (fun a => if a =? to then m from else m a)
  end.

(** Modelled from the spec: utilities/copy.hpp is not among the sources.
    The specification calls this a word-aligned, non-overlapping copy of
    [count] heap words; the two requirements are what the routine checks
    when assertions are compiled in, and the words are copied in
    ascending order. *)
Definition aligned_disjoint_words (from to : Z) (count : N) : M unit :=
  assert (aligned from && aligned to) "assert_params_aligned" ;;
  assert (disjoint from to count) "assert_disjoint" ;;
  fun w => Done (tt, {| mem := copy_words from to (N.to_nat count) (mem w);
                        gclog := gclog w |}).
End Copy.
End Copy.

(** ** The member functions of [Generation] *)

Section Generation.
Context {cfg : VMConfig}.
Variable gch : GenCollectedHeap.
Variable rt : Runtime.

Fixpoint iterate_spaces {B} (do_space : Space.t -> B -> M B)
         (l : list Space.t) (blk : B) : M B :=
  match l with
  | [] => ret blk
  | s :: l' => blk' <- do_space s blk ;; iterate_spaces do_space l' blk'
  end.

(** [space_iterate(blk, usedOnly)]; the closure is returned in its final
    state. *)
Definition space_iterate {B} (g : Generation) (do_space : Space.t -> B -> M B)
           (blk : B) (usedOnly : bool) : M B :=
  iterate_spaces do_space (spaces g usedOnly) blk.

(** The constructor; [cls] is the concrete class being constructed. *)
Definition new_Generation (cls : GenerationImpl) (rs : ReservedSpace)
           (initial_size : N) (level : Z) : M Generation :=
  match VirtualSpace_initialize rt rs initial_size with
  | None =>
      vm_exit_during_initialization "Could not reserve enough space for object heap"
  | Some vs =>
      (if ZapUnusedHeapArea
       then mangle_region rt {| start := low vs; end_ := high vs |}
       else ret tt) ;;
      ret {| _level := level;
             _ref_processor := NULL;
             _virtual_space := vs;
             _reserved := {| start := low_boundary vs; end_ := high_boundary vs |};
             impl := cls |}
  end.

Definition max_capacity (g : Generation) : N := byte_size (reserved g).

Definition ref_processor_init (g : Generation) : M Generation :=
  assert (_ref_processor g =? NULL) "a reference processor already exists" ;;
  assert (negb (is_empty (_reserved g))) "empty generation?" ;;
  rp <- new_ReferenceProcessor rt (_reserved g) ;;
  if rp =? NULL
  then vm_exit_during_initialization "Could not allocate ReferenceProcessor object"
  else ret {| _level := _level g;
              _ref_processor := rp;
              _virtual_space := _virtual_space g;
              _reserved := _reserved g;
              impl := impl g |}.

Definition is_in (g : Generation) (p : Z) : M bool :=
  blk <- space_iterate g GenerationIsInClosure.do_space
                       (GenerationIsInClosure.new p) false ;;
  ret (match GenerationIsInClosure.sp blk with Some _ => true | None => false end).

Definition next_gen (g : Generation) : option Generation :=
  if level g =? 0 then old_gen gch else None.

(** The loop of [max_contiguous_available], from [gen] with the running
    maximum [max]; [fuel] bounds the number of generations visited. *)
Fixpoint max_contiguous_available_from (fuel : nat) (gen : option Generation)
         (max : N) : M N :=
  match gen with
  | None => ret max
  | Some gen =>
      match fuel with
      | O => out_of_fuel
      | S fuel' =>
          avail <- query (contiguous_available gen) ;;
          max_contiguous_available_from fuel' (next_gen gen)
            (if (max <? avail)%N then avail else max)
      end
  end.

Definition max_contiguous_available (fuel : nat) (g : Generation) : M N :=
  max_contiguous_available_from fuel (Some g) 0%N.

Definition promotion_attempt_is_safe (fuel : nat) (g : Generation)
           (max_promotion_in_bytes : N) : M bool :=
  available <- max_contiguous_available fuel g ;;
  let res := (max_promotion_in_bytes <=? available)%N in
  (if PrintGC && Verbose
   then print_cr ("Generation: promo attempt is" ++ (if res then "" else " not")
                  ++ " safe: available(" ++ SIZE_FORMAT available ++ ") "
                  ++ (if res then ">=" else "<")
                  ++ " max_promo(" ++ SIZE_FORMAT max_promotion_in_bytes ++ ")")
   else ret tt) ;;
  ret res.

Definition promote (g : Generation) (obj : Z) (obj_size : N) : M Z :=
  sz <- query (fun w => oop_size rt w obj) ;;
  assert (obj_size =? size_t_of_int sz)%N "bad obj_size passed in" ;;
  should_fail <- (if PRODUCT then ret false else promotion_should_fail gch) ;;
  if should_fail then ret NULL
  else
    result <- allocate g obj_size false ;;
    if negb (result =? NULL)
    then Copy.aligned_disjoint_words obj result obj_size ;; ret result
    else handle_failed_promotion gch g obj obj_size.

Definition par_promote (g : Generation) (thread_num : Z) (obj : Z) (m : Z)
           (word_sz : N) : M Z :=
  ShouldNotCallThis ;;
  ret NULL.

Definition space_containing (g : Generation) (p : Z) : M (option Space.t) :=
  blk <- space_iterate g GenerationIsInReservedClosure.do_space
                       (GenerationIsInReservedClosure.new p) false ;;
  ret (GenerationIsInReservedClosure.sp blk).

Definition block_start (g : Generation) (p : Z) : M Z :=
  blk <- space_iterate g GenerationBlockStartClosure.do_space
                       (GenerationBlockStartClosure.new p) false ;;
  ret (GenerationBlockStartClosure._start blk).

Definition block_size (g : Generation) (p : Z) : M N :=
  blk <- space_iterate g GenerationBlockSizeClosure.do_space
                       (GenerationBlockSizeClosure.new p) false ;;
  assert (0 <? GenerationBlockSizeClosure.size blk)%N "seems reasonable" ;;
  ret (GenerationBlockSizeClosure.size blk).

Definition block_is_obj (g : Generation) (p : Z) : M bool :=
  blk <- space_iterate g GenerationBlockIsObjClosure.do_space
                       (GenerationBlockIsObjClosure.new p) false ;;
  ret (GenerationBlockIsObjClosure.is_obj blk).

(** The loop of [prepare_for_compaction], from the space at [space]. *)
Fixpoint prepare_for_compaction_from (fuel : nat) (cp : Z) (space : Z) : M unit :=
  if space =? NULL then ret tt
  else
    match fuel with
    | O => out_of_fuel
    | S fuel' =>
        CompactibleSpace.prepare_for_compaction (compactible_space_at rt space) cp ;;
        prepare_for_compaction_from fuel' cp
          (CompactibleSpace.next_compaction_space (compactible_space_at rt space))
    end.

Definition prepare_for_compaction (fuel : nat) (g : Generation) (cp : Z) : M unit :=
  prepare_for_compaction_from fuel cp (first_compaction_space g).

Definition adjust_pointers (g : Generation) : M unit :=
  space_iterate g AdjustPointersClosure.do_space tt true.

(** The loop of [compact], from the space at [sp]. *)
Fixpoint compact_from (fuel : nat) (sp : Z) : M unit :=
  if sp =? NULL then ret tt
  else
    match fuel with
    | O => out_of_fuel
    | S fuel' =>
        CompactibleSpace.compact (compactible_space_at rt sp) ;;
        compact_from fuel' (CompactibleSpace.next_compaction_space (compactible_space_at rt sp))
    end.

Definition compact (fuel : nat) (g : Generation) : M unit :=
  compact_from fuel (first_compaction_space g).

End Generation.

(** ** Chains of generations and of compactible spaces *)

Section Chains.
Variable gch : GenCollectedHeap.
Variable rt : Runtime.

(** [generation_chain gen l]: following [next_gen] from [gen] reaches the
    end after visiting exactly the generations [l]. *)
Inductive generation_chain : option Generation -> list Generation -> Prop :=
| generation_chain_end : generation_chain None []
| generation_chain_next g l :
    generation_chain (next_gen gch g) l ->
    generation_chain (Some g) (g :: l).

(** [compaction_chain p l]: following [next_compaction_space] from the
    space at [p] reaches [NULL] after visiting exactly the spaces at [l]. *)
Inductive compaction_chain : Z -> list Z -> Prop :=
| compaction_chain_end : compaction_chain NULL []
| compaction_chain_next p l :
    p <> NULL ->
    compaction_chain
      (CompactibleSpace.next_compaction_space (compactible_space_at rt p)) l ->
    compaction_chain p (p :: l).

(** The largest of the answers of [contiguous_available] over [l]. *)
Definition max_available (w : World) (l : list Generation) : N :=
  fold_right N.max 0%N (map (fun g : Generation => contiguous_available g w) l).
End Chains.

(** ** Properties of spaces *)

(** No address lies in the reserved extent of two of the spaces: the spaces
    of a generation partition its committed memory. *)
Definition disjoint_reserved (w : World) (l : list Space.t) : Prop :=
  forall i j s1 s2 p,
    nth_error l i = Some s1 -> nth_error l j = Some s2 ->
    Space.is_in_reserved s1 w p = true -> Space.is_in_reserved s2 w p = true ->
    i = j.

(** What [Generation::block_start] relies on in a space: an address of a
    block in use lies in the reserved extent, and the start of its block is
    a non-null address of the same extent that is its own block start. *)
Definition block_start_contract (w : World) (s : Space.t) : Prop :=
  forall a : Z,
    Space.is_in s w a = true ->
    Space.is_in_reserved s w a = true
    /\ Space.block_start s w a <> NULL
    /\ Space.is_in_reserved s w (Space.block_start s w a) = true
    /\ Space.block_start s w (Space.block_start s w a) = Space.block_start s w a.

(** ** A small two-generation heap, used by the examples

    Memory layout of the example: the young generation is [[64, 256)] with
    eden [[64, 128)], a survivor space [[128, 192)] and a to-space
    [[192, 256)] that is not compactible; the old generation is the single
    space [[256, 512)].  The cells at 8, 48, 56 and 16 hold the tops of eden,
    the survivor space, the to-space and the old space, the cell at 24 the
    promotion-failure switch, the cell at 32 the last object handed to the
    failed-promotion handler; a space with its top in cell [c] counts its
    [adjust_pointers] passes in cell [c + 1024] and records its [compact]
    pass in cell [c + 2048].  The first word of an object holds its size in
    words. *)

Definition load (a : Z) : M Z := query (fun w => mem w a).

Definition store (a v : Z) : M unit :=
  fun w => Done (tt, {| mem := fun x => if x =? a then v else mem w x;
                        gclog := gclog w |}).

Definition LP64_debug : VMConfig :=
  {| HeapWordSize := 8; HeapWordSize_pos := eq_refl;
     ASSERT := true; PRODUCT := false;
     ZapUnusedHeapArea := true; PrintGC := true; Verbose := true |}.

Definition LP64_product : VMConfig :=
  {| HeapWordSize := 8; HeapWordSize_pos := eq_refl;
     ASSERT := false; PRODUCT := true;
     ZapUnusedHeapArea := false; PrintGC := false; Verbose := false |}.

(** A space [[bottom, end_addr)] of two-word blocks below the top kept in
    the cell [top_cell], and one free block above it. *)
Definition example_space (bottom end_addr top_cell : Z) : Space.t :=
  {| Space.is_in_reserved := fun _ p => (bottom <=? p) && (p <? end_addr);
     Space.is_in := fun w p => (bottom <=? p) && (p <? mem w top_cell);
     Space.block_start := fun w p =>
       if p <? mem w top_cell then bottom + (p - bottom) / 16 * 16 else mem w top_cell;
     Space.block_size := fun w p =>
       if p <? mem w top_cell then 2%N else Z.to_N ((end_addr - mem w top_cell) / 8);
     Space.block_is_obj := fun w p => p <? mem w top_cell;
     Space.adjust_pointers := (n <- load (top_cell + 1024) ;; store (top_cell + 1024) (n + 1)) |}.

Definition eden : Space.t := example_space 64 128 8.
Definition survivor : Space.t := example_space 128 192 48.
Definition to_space : Space.t := example_space 192 256 56.
Definition tenured : Space.t := example_space 256 512 16.

(** A bump allocator in [[_, end_addr)] with its top in [top_cell]. *)
Definition bump_allocate (end_addr top_cell : Z) (word_size : N) (is_tlab : bool) : M Z :=
  top <- load top_cell ;;
  if top + Z.of_N word_size * 8 <=? end_addr
  then store top_cell (top + Z.of_N word_size * 8) ;; ret top
  else ret NULL.

Definition young_impl : GenerationImpl :=
  {| contiguous_available := fun w => Z.to_N ((128 - mem w 8) / 8);
     allocate := bump_allocate 128 8;
     spaces := fun _ => [eden; survivor; to_space];
     first_compaction_space := 1000 |}.

Definition old_impl : GenerationImpl :=
  {| contiguous_available := fun w => Z.to_N ((512 - mem w 16) / 8);
     allocate := bump_allocate 512 16;
     spaces := fun _ => [tenured];
     first_compaction_space := 3000 |}.

Definition young : Generation :=
  {| _level := 0; _ref_processor := NULL;
     _virtual_space := {| low_boundary := 64; high_boundary := 256; low := 64; high := 256 |};
     _reserved := {| start := 64; end_ := 256 |};
     impl := young_impl |}.

Definition old : Generation :=
  {| _level := 1; _ref_processor := NULL;
     _virtual_space := {| low_boundary := 256; high_boundary := 512; low := 256; high := 320 |};
     _reserved := {| start := 256; end_ := 512 |};
     impl := old_impl |}.

Definition example_heap : GenCollectedHeap :=
  {| old_gen := Some old;
     promotion_should_fail := (flag <- load 24 ;; ret (negb (flag =? 0)));
     handle_failed_promotion := fun _ obj _ => store 32 obj ;; ret 4096 |}.

(** The compactible spaces of the example: eden (at 1000) is followed by the
    survivor space (at 2000), the to-space is not on the chain; the old
    space (at 3000) stands alone.  Each [prepare_for_compaction] advances
    the cursor stored at [cp] by the bytes in use in its space. *)
Definition example_compactible (s : Space.t) (bottom top_cell next : Z) : CompactibleSpace.t :=
  {| CompactibleSpace.as_Space := s;
     CompactibleSpace._next_compaction_space := next;
     CompactibleSpace.prepare_for_compaction := fun cp =>
       (cur <- load cp ;; top <- load top_cell ;; store cp (cur + (top - bottom)));
     CompactibleSpace.compact := (top <- load top_cell ;; store (top_cell + 2048) top) |}.

Definition example_runtime : Runtime :=
  {| oop_size := fun w obj => mem w obj;
     compactible_space_at := fun p =>
       if p =? 1000 then example_compactible eden 64 8 2000
       else if p =? 2000 then example_compactible survivor 128 48 NULL
       else example_compactible tenured 256 16 NULL;
     VirtualSpace_initialize := fun rs initial_size =>
       if (initial_size <=? rs_size rs)%N
       then Some {| low_boundary := base rs; high_boundary := base rs + Z.of_N (rs_size rs);
                    low := base rs; high := base rs + Z.of_N initial_size |}
       else None;
     mangle_region := fun _ => ret tt;
     new_ReferenceProcessor := fun _ => ret 4096 |}.

(** Eden holds two objects ([[64, 96)] is in use), the survivor space one
    ([[128, 144)]), the to-space and the old space none; the object at 64
    has two words, the second of them 42. *)
Definition example_world : World :=
  {| mem := fun a =>
       if a =? 8 then 96 else if a =? 16 then 256 else if a =? 48 then 144
       else if a =? 56 then 192
       else if a =? 64 then 2 else if a =? 72 then 42 else 0;
     gclog := [] |}.

(** The same world with the promotion-failure switch on. *)
Definition example_world_failing : World :=
  {| mem := fun a => if a =? 24 then 1 else mem example_world a;
     gclog := [] |}.

(** The example world after the old generation has allocated two words. *)
Definition example_world_allocated : World :=
  {| mem := fun x => if x =? 16 then 256 + Z.of_N 2 * 8 else mem example_world x;
     gclog := gclog example_world |}.

(** A generation whose two spaces, against the layout above, overlap in
    [[96, 128)]: eden, and a space [[96, 160)] with its top at 128. *)
Definition overlapping : Generation :=
  {| _level := 0; _ref_processor := NULL;
     _virtual_space := {| low_boundary := 64; high_boundary := 160; low := 64; high := 160 |};
     _reserved := {| start := 64; end_ := 160 |};
     impl := {| contiguous_available := fun _ => 0%N;
                allocate := fun _ _ => ret NULL;
                spaces := fun _ => [eden; example_space 96 160 48];
                first_compaction_space := NULL |} |}.

(** The young generation as its constructor leaves it, with half of its
    range committed, and as [ref_processor_init] then leaves it. *)
Definition constructed_young : Generation :=
  {| _level := 0; _ref_processor := NULL;
     _virtual_space := {| low_boundary := 64; high_boundary := 256; low := 64; high := 128 |};
     _reserved := {| start := 64; end_ := 256 |};
     impl := young_impl |}.

Definition initialized_young : Generation :=
  {| _level := 0; _ref_processor := 4096;
     _virtual_space := {| low_boundary := 64; high_boundary := 256; low := 64; high := 128 |};
     _reserved := {| start := 64; end_ := 256 |};
     impl := young_impl |}.

(** ** Statements about [promote] *)

(** The debug-only hook of [promote]: absent from product builds. *)
Definition promotion_hook {cfg : VMConfig} (gch : GenCollectedHeap) : M bool :=
  if PRODUCT then ret false else promotion_should_fail gch.

(** The size passed to [promote] agrees with the object, where that is
    checked. *)
Definition size_checked {cfg : VMConfig} (rt : Runtime) (obj : Z) (obj_size : N) (w : World) : Prop :=
  ASSERT = false \/ obj_size = size_t_of_int (oop_size rt w obj).

(** "When the debug-only hook forces the promotion to fail, [promote]
    delegates to the failed-promotion handler": the call ends as the
    handler, entered in the world the hook left, ends. *)
Definition forced_failure_is_delegated {cfg : VMConfig} (gch : GenCollectedHeap) (rt : Runtime)
           (g : Generation) (obj : Z) (obj_size : N) (w : World) : Prop :=
  forall w1 : World,
    promotion_hook gch w = Done (true, w1) ->
    promote gch rt g obj obj_size w = handle_failed_promotion gch g obj obj_size w1.

(** ** The remaining member functions *)

(** What [spec()] asks of the collector policy ([gch->gen_policy()]): the two
    [GenerationSpec*] it hands out. *)
Record GenCollectorPolicy : Type := {
  young_gen_spec : Z;
  old_gen_spec : Z
}.

Definition spec {cfg : VMConfig} (gen_policy : GenCollectorPolicy) (g : Generation) : M Z :=
  assert ((level g =? 0) || (level g =? 1)) "Bad gen level" ;;
  ret (if level g =? 0 then young_gen_spec gen_policy else old_gen_spec gen_policy).

(** The iteration member functions of [Space], which take the pointer to the
    caller's closure; as class [Space] is not among the sources, they are
    given per space object. *)
Record SpaceIterators : Type := {
  Space_oop_iterate : Space.t -> Z -> M unit;
  Space_object_iterate : Space.t -> Z -> M unit;
  Space_safe_object_iterate : Space.t -> Z -> M unit
}.

Module GenerationOopIterateClosure.
Record t : Type := { _cl : Z }.
Definition do_space (it : SpaceIterators) (s : Space.t) (blk : t) : M t :=
  Space_oop_iterate it s (_cl blk) ;; ret blk.
End GenerationOopIterateClosure.

Module GenerationObjIterateClosure.
Record t : Type := { _cl : Z }.
Definition do_space (it : SpaceIterators) (s : Space.t) (blk : t) : M t :=
  Space_object_iterate it s (_cl blk) ;; ret blk.
End GenerationObjIterateClosure.

Module GenerationSafeObjIterateClosure.
Record t : Type := { _cl : Z }.
Definition do_space (it : SpaceIterators) (s : Space.t) (blk : t) : M t :=
  Space_safe_object_iterate it s (_cl blk) ;; ret blk.
End GenerationSafeObjIterateClosure.

Definition oop_iterate (it : SpaceIterators) (g : Generation) (cl : Z) : M unit :=
  space_iterate g (GenerationOopIterateClosure.do_space it)
                {| GenerationOopIterateClosure._cl := cl |} false ;;
  ret tt.

Definition object_iterate (it : SpaceIterators) (g : Generation) (cl : Z) : M unit :=
  space_iterate g (GenerationObjIterateClosure.do_space it)
                {| GenerationObjIterateClosure._cl := cl |} false ;;
  ret tt.

Definition safe_object_iterate (it : SpaceIterators) (g : Generation) (cl : Z) : M unit :=
  space_iterate g (GenerationSafeObjIterateClosure.do_space it)
                {| GenerationSafeObjIterateClosure._cl := cl |} false ;;
  ret tt.

(** ** Diagnostics and the remembered set *)

(** Arithmetic on [double], which [print_summary_info_on] uses on the
    accumulated time: the type and its operations are not defined here. *)
Record DoubleOps : Type := {
  double : Type;
  double_zero : double;
  double_of_int : Z -> double;
  double_div : double -> double -> double
}.

(** An argument of a [printf]-style member function of [outputStream]. *)
Inductive printf_arg (D : DoubleOps) : Type :=
| Arg_string (s : string)
| Arg_size_t (n : N)
| Arg_int (i : Z)
| Arg_pointer (p : Z)
| Arg_double (d : double D).

Arguments Arg_string {D} s.
Arguments Arg_size_t {D} n.
Arguments Arg_int {D} i.
Arguments Arg_pointer {D} p.
Arguments Arg_double {D} d.

(** The two member functions of [outputStream] the file calls, each with a
    format and its arguments; what a stream does with them is its own
    business. *)
Record outputStream (D : DoubleOps) : Type := {
  st_print : string -> list (printf_arg D) -> M unit;
  st_print_cr : string -> list (printf_arg D) -> M unit
}.

Arguments st_print {D} o.
Arguments st_print_cr {D} o.

(** The two members of [StatRecord] that are printed:
    [accumulated_time.seconds()] and [invocations]. *)
Record StatRecord (D : DoubleOps) : Type := {
  accumulated_time_seconds : double D;
  invocations : Z
}.

Arguments accumulated_time_seconds {D} s.
Arguments invocations {D} s.

(** What the printing functions read besides the members modelled above:
    the flag [PrintGCDetails], the global streams, the conversion
    specifications the macros [SIZE_FORMAT] and [INTPTR_FORMAT] expand to,
    the virtual member functions [name()], [used()] and [capacity()], and
    the statistics record [stat_record()] points to. *)
Record Diagnostics (D : DoubleOps) : Type := {
  PrintGCDetails : bool;
  gclog_or_tty : outputStream D;
  tty : outputStream D;
  SIZE_FORMAT_conversion : string;
  INTPTR_FORMAT_conversion : string;
  name : Generation -> string;
  used : Generation -> World -> N;
  capacity : Generation -> World -> N;
  stat_record : Generation -> World -> StatRecord D
}.

Arguments PrintGCDetails {D} d.
Arguments gclog_or_tty {D} d.
Arguments tty {D} d.
Arguments SIZE_FORMAT_conversion {D} d.
Arguments INTPTR_FORMAT_conversion {D} d.
Arguments name {D} d.
Arguments used {D} d.
Arguments capacity {D} d.
Arguments stat_record {D} d.

(** The remembered set ([gch->rem_set()]). *)
Module GenRemSet.
Record t : Type := {
  younger_refs_in_space_iterate : Space.t -> Z -> M unit
}.
End GenRemSet.

(** The constant [K]. *)
Definition K : N := 1024.

Section Printing.
Context {cfg : VMConfig}.
Variable D : DoubleOps.
Variable diag : Diagnostics D.

Definition print_heap_change (g : Generation) (prev_used : N) : M unit :=
  used_now <- query (used diag g) ;;
  capacity_now <- query (capacity diag g) ;;
  if PrintGCDetails diag && Verbose
  then st_print (gclog_or_tty diag)
         (" " ++ SIZE_FORMAT_conversion diag
          ++ "->" ++ SIZE_FORMAT_conversion diag
          ++ "(" ++ SIZE_FORMAT_conversion diag ++ ")")
         [Arg_size_t prev_used; Arg_size_t used_now; Arg_size_t capacity_now]
  else st_print (gclog_or_tty diag)
         (" " ++ SIZE_FORMAT_conversion diag ++ "K"
          ++ "->" ++ SIZE_FORMAT_conversion diag ++ "K"
          ++ "(" ++ SIZE_FORMAT_conversion diag ++ "K)")
         [Arg_size_t (prev_used / K); Arg_size_t (used_now / K);
          Arg_size_t (capacity_now / K)].

Definition print_on (g : Generation) (st : outputStream D) : M unit :=
  st_print st " %-20s" [Arg_string (name diag g)] ;;
  capacity_now <- query (capacity diag g) ;;
  used_now <- query (used diag g) ;;
  st_print st (" total " ++ SIZE_FORMAT_conversion diag
               ++ "K, used " ++ SIZE_FORMAT_conversion diag ++ "K")
           [Arg_size_t (capacity_now / K); Arg_size_t (used_now / K)] ;;
  st_print_cr st (" [" ++ INTPTR_FORMAT_conversion diag
                  ++ ", " ++ INTPTR_FORMAT_conversion diag
                  ++ ", " ++ INTPTR_FORMAT_conversion diag ++ ")")
              [Arg_pointer (low_boundary (_virtual_space g));
               Arg_pointer (high (_virtual_space g));
               Arg_pointer (high_boundary (_virtual_space g))].

Definition print (g : Generation) : M unit := print_on g (tty diag).

Definition print_summary_info_on (g : Generation) (st : outputStream D) : M unit :=
  sr <- query (stat_record diag g) ;;
  let time := accumulated_time_seconds sr in
  st_print_cr st
    "[Accumulated GC generation %d time %3.7f secs, %d GC's, avg GC time %3.7f]"
    [Arg_int (level g); Arg_double time; Arg_int (invocations sr);
     Arg_double (if 0 <? invocations sr
                 then double_div D time (double_of_int D (invocations sr))
                 else double_zero D)].

Definition print_summary_info (g : Generation) : M unit :=
  print_summary_info_on g (tty diag).
End Printing.

Definition younger_refs_in_space_iterate (rem_set : GenRemSet.t) (g : Generation)
           (sp : Space.t) (cl : Z) : M unit :=
  GenRemSet.younger_refs_in_space_iterate rem_set sp cl.

(** ** The object and the operations performed on it over its lifetime *)

(** A call of a member function of the file on an existing generation,
    with its arguments: every member function the file defines but the
    constructor. *)
Inductive operation (D : DoubleOps) : Type :=
| Call_spec
| Call_max_capacity
| Call_print_heap_change (prev_used : N)
| Call_ref_processor_init
| Call_print
| Call_print_on (st : outputStream D)
| Call_print_summary_info
| Call_print_summary_info_on (st : outputStream D)
| Call_is_in (p : Z)
| Call_next_gen
| Call_max_contiguous_available
| Call_promotion_attempt_is_safe (max_promotion_in_bytes : N)
| Call_promote (obj : Z) (obj_size : N)
| Call_par_promote (thread_num obj m : Z) (word_sz : N)
| Call_space_containing (p : Z)
| Call_block_start (p : Z)
| Call_block_size (p : Z)
| Call_block_is_obj (p : Z)
| Call_oop_iterate (cl : Z)
| Call_younger_refs_in_space_iterate (sp : Space.t) (cl : Z)
| Call_object_iterate (cl : Z)
| Call_safe_object_iterate (cl : Z)
| Call_prepare_for_compaction (cp : Z)
| Call_adjust_pointers
| Call_compact.

Arguments Call_spec {D}.
Arguments Call_max_capacity {D}.
Arguments Call_print_heap_change {D} prev_used.
Arguments Call_ref_processor_init {D}.
Arguments Call_print {D}.
Arguments Call_print_on {D} st.
Arguments Call_print_summary_info {D}.
Arguments Call_print_summary_info_on {D} st.
Arguments Call_is_in {D} p.
Arguments Call_next_gen {D}.
Arguments Call_max_contiguous_available {D}.
Arguments Call_promotion_attempt_is_safe {D} max_promotion_in_bytes.
Arguments Call_promote {D} obj obj_size.
Arguments Call_par_promote {D} thread_num obj m word_sz.
Arguments Call_space_containing {D} p.
Arguments Call_block_start {D} p.
Arguments Call_block_size {D} p.
Arguments Call_block_is_obj {D} p.
Arguments Call_oop_iterate {D} cl.
Arguments Call_younger_refs_in_space_iterate {D} sp cl.
Arguments Call_object_iterate {D} cl.
Arguments Call_safe_object_iterate {D} cl.
Arguments Call_prepare_for_compaction {D} cp.
Arguments Call_adjust_pointers {D}.
Arguments Call_compact {D}.

(** Modelled from the spec: code outside the file that holds the object --
    the member functions of the concrete generation, the failed-promotion
    handler that [promote] hands [this] -- commits and uncommits memory:
    the virtual space "may grow/shrink within reserved".  [resized vs vs']
    says that [vs'] is [vs] with another committed part inside the same
    boundaries. *)
Definition resized (vs vs' : VirtualSpace) : Prop :=
  low_boundary vs' = low_boundary vs
  /\ high_boundary vs' = high_boundary vs
  /\ low_boundary vs <= low vs' /\ low vs' <= high vs' /\ high vs' <= high_boundary vs.

(** The object [g] with the virtual space [vs]. *)
Definition with_virtual_space (g : Generation) (vs : VirtualSpace) : Generation :=
  {| _level := _level g;
     _ref_processor := _ref_processor g;
     _virtual_space := vs;
     _reserved := _reserved g;
     impl := impl g |}.

Section Lifetime.
Context {cfg : VMConfig}.
Variable gch : GenCollectedHeap.
Variable rt : Runtime.
Variable D : DoubleOps.
Variable diag : Diagnostics D.
Variable gen_policy : GenCollectorPolicy.
Variable rem_set : GenRemSet.t.
Variable it : SpaceIterators.

(** One call on the generation [g]; the result is the object after the
    call (the value the call returns is dropped).  Only the body of
    [ref_processor_init] assigns a data member; the other bodies leave the
    object as they found it. *)
Definition call (fuel : nat) (op : operation D) (g : Generation) : M Generation :=
  match op with
  | Call_spec => spec gen_policy g ;; ret g
  | Call_max_capacity => query (fun _ => max_capacity g) ;; ret g
  | Call_print_heap_change prev_used => print_heap_change D diag g prev_used ;; ret g
  | Call_ref_processor_init => ref_processor_init rt g
  | Call_print => print D diag g ;; ret g
  | Call_print_on st => print_on D diag g st ;; ret g
  | Call_print_summary_info => print_summary_info D diag g ;; ret g
  | Call_print_summary_info_on st => print_summary_info_on D diag g st ;; ret g
  | Call_is_in p => is_in g p ;; ret g
  | Call_next_gen => query (fun _ => next_gen gch g) ;; ret g
  | Call_max_contiguous_available => max_contiguous_available gch fuel g ;; ret g
  | Call_promotion_attempt_is_safe n => promotion_attempt_is_safe gch fuel g n ;; ret g
  | Call_promote obj obj_size => promote gch rt g obj obj_size ;; ret g
  | Call_par_promote thread_num obj m word_sz =>
      par_promote g thread_num obj m word_sz ;; ret g
  | Call_space_containing p => space_containing g p ;; ret g
  | Call_block_start p => block_start g p ;; ret g
  | Call_block_size p => block_size g p ;; ret g
  | Call_block_is_obj p => block_is_obj g p ;; ret g
  | Call_oop_iterate cl => oop_iterate it g cl ;; ret g
  | Call_younger_refs_in_space_iterate sp cl =>
      younger_refs_in_space_iterate rem_set g sp cl ;; ret g
  | Call_object_iterate cl => object_iterate it g cl ;; ret g
  | Call_safe_object_iterate cl => safe_object_iterate it g cl ;; ret g
  | Call_prepare_for_compaction cp => prepare_for_compaction rt fuel g cp ;; ret g
  | Call_adjust_pointers => adjust_pointers g ;; ret g
  | Call_compact => compact rt fuel g ;; ret g
  end.

(** The states of the object and the world reachable from [(g0, w0)]: by
    calls of the member functions that return, and by the code outside the
    file that resizes the virtual space and does to the world what it
    likes. *)
Inductive reachable (g0 : Generation) (w0 : World) : Generation -> World -> Prop :=
| reachable_start : reachable g0 w0 g0 w0
| reachable_call fuel op g w g' w' :
    reachable g0 w0 g w ->
    call fuel op g w = Done (g', w') ->
    reachable g0 w0 g' w'
| reachable_resize g w vs' w' :
    reachable g0 w0 g w ->
    resized (_virtual_space g) vs' ->
    reachable g0 w0 (with_virtual_space g vs') w'.
End Lifetime.

(** ** Reference answers of the block queries *)

(** [sp != NULL] for the [Space*] a closure holds. *)
Definition has_space (o : option Space.t) : bool :=
  match o with Some _ => true | None => false end.

(** The block start reported by the first of the spaces [l] that contains
    [p] and reports one, [NULL] if there is none. *)
Definition first_block_start (w : World) (p : Z) (l : list Space.t) : Z :=
  match find (fun s => Space.is_in_reserved s w p
                       && negb (Space.block_start s w p =? NULL)) l with
  | Some s => Space.block_start s w p
  | None => NULL
  end.

(** The block size reported by the first of the spaces [l] that contains [p]
    and reports a non-zero one, zero if there is none. *)
Definition first_block_size (w : World) (p : Z) (l : list Space.t) : N :=
  match find (fun s => Space.is_in_reserved s w p
                       && negb (Space.block_size s w p =? 0)%N) l with
  | Some s => Space.block_size s w p
  | None => 0%N
  end.

(** ** Further examples *)

(** A heap set up wrongly: its "old" generation is the young one, of
    level 0. *)
Definition looping_heap : GenCollectedHeap :=
  {| old_gen := Some young;
     promotion_should_fail := ret false;
     handle_failed_promotion := fun _ _ _ => ret NULL |}.

(** A runtime in which the compactible space at 1000 is its own successor. *)
Definition cyclic_runtime : Runtime :=
  {| oop_size := oop_size example_runtime;
     compactible_space_at := fun _ => example_compactible eden 64 8 1000;
     VirtualSpace_initialize := VirtualSpace_initialize example_runtime;
     mangle_region := mangle_region example_runtime;
     new_ReferenceProcessor := new_ReferenceProcessor example_runtime |}.

(** The example world after the object at 64 has been promoted to 256. *)
Definition example_world_promoted : World :=
  {| mem := Copy.copy_words (cfg := LP64_debug) 64 256 (N.to_nat 2)
                            (mem example_world_allocated);
     gclog := gclog example_world_allocated |}.

Definition example_policy : GenCollectorPolicy :=
  {| young_gen_spec := 5000; old_gen_spec := 6000 |}.

(** A generation of level 2. *)
Definition misleveled : Generation :=
  {| _level := 2; _ref_processor := NULL;
     _virtual_space := _virtual_space old;
     _reserved := _reserved old;
     impl := old_impl |}.

(** Iterators that count, in the cell the closure pointer names, the spaces
    they are applied to. *)
Definition counting_iterators : SpaceIterators :=
  {| Space_oop_iterate := fun _ cl => (n <- load cl ;; store cl (n + 1));
     Space_object_iterate := fun _ cl => (n <- load cl ;; store cl (n + 1));
     Space_safe_object_iterate := fun _ cl => (n <- load cl ;; store cl (n + 1)) |}.

(** ** Examples for the lifetime of a generation *)

(** Whole numbers in the place of [double], for the examples. *)
Definition whole_numbers : DoubleOps :=
  {| double := Z; double_zero := 0; double_of_int := fun i => i; double_div := Z.div |}.

(** A stream that keeps, as lines of the GC log, the formats it is handed. *)
Definition recording_stream : outputStream whole_numbers :=
  {| st_print := fun format _ => print_cr format;
     st_print_cr := fun format _ => print_cr format |}.

Definition example_diagnostics : Diagnostics whole_numbers :=
  {| PrintGCDetails := true;
     gclog_or_tty := recording_stream;
     tty := recording_stream;
     SIZE_FORMAT_conversion := "%lu";
     INTPTR_FORMAT_conversion := "0x%016lx";
     name := fun _ => "def new generation"%string;
     used := fun _ w => Z.to_N (mem w 8 - 64);
     capacity := fun _ _ => 64%N;
     stat_record := fun _ _ =>
       {| accumulated_time_seconds := (3 : double whole_numbers); invocations := 2 |} |}.

Definition example_rem_set : GenRemSet.t :=
  {| GenRemSet.younger_refs_in_space_iterate := fun _ cl => store cl 1 |}.

(** The young generation after [ref_processor_init] and after all of its
    range has then been committed. *)
Definition grown_young : Generation :=
  with_virtual_space initialized_young
    {| low_boundary := 64; high_boundary := 256; low := 64; high := 256 |}.

(** ** The claims about the enumeration of spaces, as they were made *)

(** "[adjust_pointers] visits all owned spaces": it runs the pass of every
    space of the plain enumeration, [space_iterate] with [usedOnly] false. *)
Definition adjust_pointers_visits_all_owned (g : Generation) (w : World) : Prop :=
  adjust_pointers g w = for_each Space.adjust_pointers (spaces g false) w.

(** A young generation whose [space_iterate] honours [usedOnly]: with the
    flag set it leaves out the to-space, which is empty. *)
Definition young_used_only : Generation :=
  {| _level := 0; _ref_processor := NULL;
     _virtual_space := _virtual_space young;
     _reserved := _reserved young;
     impl := {| contiguous_available := contiguous_available young_impl;
                allocate := allocate young_impl;
                spaces := fun usedOnly : bool =>
                  if usedOnly then [eden; survivor] else [eden; survivor; to_space];
                first_compaction_space := 1000 |} |}.

(** "The lookup closures consult only the first space whose reserved extent
    contains [p], ignoring all later spaces": whatever follows the first
    containing space, the three block queries answer with what it reports. *)
Definition first_containing_space_answers {cfg : VMConfig}
           (g : Generation) (p : Z) (w : World) : Prop :=
  forall (l1 l2 : list Space.t) (s : Space.t),
    spaces g false = l1 ++ s :: l2 ->
    (forall s', In s' l1 -> Space.is_in_reserved s' w p = false) ->
    Space.is_in_reserved s w p = true ->
    block_start g p w = Done (Space.block_start s w p, w)
    /\ block_size g p w
       = (assert (0 <? Space.block_size s w p)%N "seems reasonable" ;;
          ret (Space.block_size s w p)) w
    /\ block_is_obj g p w = Done (Space.block_is_obj s w p, w).

(** * Properties *)

(** ** The monad *)

Lemma bind_Done {A B} {c : M A} (k : A -> M B) {w w' : World} {a : A} :
  c w = Done (a, w') -> bind c k w = k a w'.
Proof. intros H. unfold bind. rewrite H. reflexivity. Qed.

Lemma bind_query {A B} (f : World -> A) (k : A -> M B) (w : World) :
  bind (query f) k w = k (f w) w.
Proof. reflexivity. Qed.

Lemma assert_holds {cfg : VMConfig} (cond : bool) (msg : string) (w : World) :
  ASSERT = false \/ cond = true -> assert cond msg w = Done (tt, w).
Proof.
  unfold assert. intros [Hoff | Hcond].
  - rewrite Hoff. reflexivity.
  - rewrite Hcond, andb_false_r. reflexivity.
Qed.

(** ** Cross-generation capacity *)

Section Capacity.
Context {cfg : VMConfig}.
Variable gch : GenCollectedHeap.

Lemma running_max (max avail : N) :
  (if (max <? avail)%N then avail else max) = N.max max avail.
Proof. destruct (N.ltb_spec max avail); lia. Qed.

(** The loop returns the larger of the running maximum and the largest
    answer along the chain, once the budget covers the chain. *)
Lemma max_contiguous_available_from_chain gen l :
  generation_chain gch gen l ->
  forall fuel max w,
    (List.length l <= fuel)%nat ->
    max_contiguous_available_from gch fuel gen max w
    = Done (N.max max (max_available w l), w).
Proof.
  induction 1 as [| g l Hchain IH]; intros fuel max w Hfuel.
  - destruct fuel; simpl; unfold ret; f_equal; f_equal; unfold max_available; simpl; lia.
  - destruct fuel as [| fuel]; [simpl in Hfuel; lia |].
    simpl in Hfuel. cbn [max_contiguous_available_from].
    rewrite bind_query, running_max, IH by lia.
    unfold max_available. simpl. f_equal. f_equal. lia.
Qed.

(** C2.  [max_contiguous_available()] on a generation returns the largest
    [contiguous_available()] over the generation and all generations
    reachable from it through [next_gen()]; on a chain of two, the young
    generation and the old one, that is the larger of the two answers. *)
Theorem max_contiguous_available_is_chain_maximum
        (fuel : nat) (g : Generation) (l : list Generation) (w : World) :
  generation_chain gch (Some g) l ->
  (List.length l <= fuel)%nat ->
  max_contiguous_available gch fuel g w = Done (max_available w l, w)
  /\ (forall o : Generation,
        l = [g; o] ->
        max_contiguous_available gch fuel g w
        = Done (N.max (contiguous_available g w) (contiguous_available o w), w)).
Proof.
  intros Hchain Hfuel.
  assert (Hrun : max_contiguous_available gch fuel g w = Done (max_available w l, w)).
  { unfold max_contiguous_available.
    rewrite (max_contiguous_available_from_chain _ _ Hchain) by exact Hfuel.
    f_equal. f_equal. lia. }
  split; [exact Hrun |].
  intros o ->. rewrite Hrun. unfold max_available. simpl.
  f_equal. f_equal. lia.
Qed.

(** C1.  [promotion_attempt_is_safe(n)] returns true exactly when [n] is at
    most what [max_contiguous_available()] returns, so also when the two
    are equal; it changes nothing but the GC log. *)
Theorem promotion_attempt_is_safe_iff
        (fuel : nat) (g : Generation) (l : list Generation) (n : N) (w : World) :
  generation_chain gch (Some g) l ->
  (List.length l <= fuel)%nat ->
  exists (available : N) (res : bool) (w' : World),
    max_contiguous_available gch fuel g w = Done (available, w)
    /\ promotion_attempt_is_safe gch fuel g n w = Done (res, w')
    /\ mem w' = mem w
    /\ (res = true <-> (n <= available)%N)
    /\ (n = available -> res = true).
Proof.
  intros Hchain Hfuel.
  assert (Hrun : max_contiguous_available gch fuel g w = Done (max_available w l, w)).
  { unfold max_contiguous_available.
    rewrite (max_contiguous_available_from_chain _ _ Hchain) by exact Hfuel.
    f_equal. f_equal. lia. }
  exists (max_available w l), (n <=? max_available w l)%N.
  unfold promotion_attempt_is_safe.
  rewrite (bind_Done _ Hrun).
  destruct (PrintGC && Verbose).
  - eexists. split; [exact Hrun |]. split; [reflexivity |].
    split; [reflexivity |]. split; [apply N.leb_le |].
    intros ->. apply N.leb_refl.
  - eexists. split; [exact Hrun |]. split; [reflexivity |].
    split; [reflexivity |]. split; [apply N.leb_le |].
    intros ->. apply N.leb_refl.
Qed.
End Capacity.

Lemma example_generation_chain :
  generation_chain example_heap (Some young) [young; old].
Proof. repeat constructor. Qed.

Lemma max_contiguous_available_is_chain_maximum_witness :
  max_contiguous_available example_heap 2 young example_world
  = Done (max_available example_world [young; old], example_world)
  /\ (forall o : Generation,
        [young; old] = [young; o] ->
        max_contiguous_available example_heap 2 young example_world
        = Done (N.max (contiguous_available young example_world)
                      (contiguous_available o example_world), example_world)).
Proof.
  apply (max_contiguous_available_is_chain_maximum example_heap 2 young [young; old]).
  - exact example_generation_chain.
  - simpl. lia.
Defined.

Lemma promotion_attempt_is_safe_iff_witness :
  exists (available : N) (res : bool) (w' : World),
    max_contiguous_available example_heap 2 young example_world
    = Done (available, example_world)
    /\ promotion_attempt_is_safe (cfg := LP64_debug) example_heap 2 young 32 example_world
       = Done (res, w')
    /\ mem w' = mem example_world
    /\ (res = true <-> (32 <= available)%N)
    /\ (32%N = available -> res = true).
Proof.
  apply (promotion_attempt_is_safe_iff (cfg := LP64_debug) example_heap 2 young [young; old]).
  - exact example_generation_chain.
  - simpl. lia.
Defined.


(** ** Promotion *)

Section CopyWords.
Context {cfg : VMConfig}.

(** Cells that are not destination words keep their contents. *)
Lemma copy_words_elsewhere (count : nat) :
  forall (from to : Z) (m : Z -> Z) (a : Z),
    (forall i : nat, (i < count)%nat -> a <> to + Z.of_nat i * HeapWordSize) ->
    Copy.copy_words from to count m a = m a.
Proof.
  induction count as [| count IH]; intros from to m a Hout; [reflexivity |].
  cbn [Copy.copy_words]. rewrite IH.
  - destruct (Z.eqb_spec a to) as [-> | _]; [| reflexivity].
    exfalso. apply (Hout 0%nat); [lia |]. simpl. lia.
  - intros i Hi. specialize (Hout (S i) ltac:(lia)).
    rewrite Nat2Z.inj_succ in Hout. lia.
Qed.

(** After the copy of disjoint blocks, destination word [i] holds what
    source word [i] held. *)
Lemma copy_words_copied (count : nat) :
  forall (from to : Z) (m : Z -> Z) (i : nat),
    from + Z.of_nat count * HeapWordSize <= to
    \/ to + Z.of_nat count * HeapWordSize <= from ->
    (i < count)%nat ->
    Copy.copy_words from to count m (to + Z.of_nat i * HeapWordSize)
    = m (from + Z.of_nat i * HeapWordSize).
Proof.
  pose proof HeapWordSize_pos as Hpos.
  induction count as [| count IH]; intros from to m i Hdisj Hi; [lia |].
  cbn [Copy.copy_words]. rewrite Nat2Z.inj_succ in Hdisj.
  destruct i as [| i].
  - rewrite copy_words_elsewhere.
    + change (Z.of_nat 0) with 0. rewrite !Z.mul_0_l, !Z.add_0_r, Z.eqb_refl. reflexivity.
    + intros j _. change (Z.of_nat 0) with 0. nia.
  - rewrite Nat2Z.inj_succ.
    replace (to + Z.succ (Z.of_nat i) * HeapWordSize)
      with (to + HeapWordSize + Z.of_nat i * HeapWordSize) by lia.
    rewrite IH by (try lia; nia).
    replace (from + Z.succ (Z.of_nat i) * HeapWordSize)
      with (from + HeapWordSize + Z.of_nat i * HeapWordSize) by lia.
    destruct (Z.eqb_spec (from + HeapWordSize + Z.of_nat i * HeapWordSize) to) as [Heq | _];
      [| reflexivity].
    exfalso. assert (Z.of_nat i < Z.of_nat count) by lia. nia.
Qed.

Lemma disjoint_true (from to : Z) (count : N) :
  Copy.disjoint from to count = true ->
  from + Z.of_nat (N.to_nat count) * HeapWordSize <= to
  \/ to + Z.of_nat (N.to_nat count) * HeapWordSize <= from.
Proof.
  unfold Copy.disjoint. rewrite N_nat_Z, orb_true_iff, !Z.leb_le. tauto.
Qed.
End CopyWords.

Section Promotion.
Context {cfg : VMConfig}.
Variable gch : GenCollectedHeap.
Variable rt : Runtime.

(** [promote] up to the answer of the hook. *)
Lemma promote_after_hook g obj obj_size w should_fail w1 :
  size_checked rt obj obj_size w ->
  promotion_hook gch w = Done (should_fail, w1) ->
  promote gch rt g obj obj_size w
  = (if should_fail then ret NULL
     else result <- allocate g obj_size false ;;
          if negb (result =? NULL)
          then Copy.aligned_disjoint_words obj result obj_size ;; ret result
          else handle_failed_promotion gch g obj obj_size) w1.
Proof.
  intros Hsize Hhook. unfold promote. rewrite bind_query.
  erewrite bind_Done.
  2:{ apply assert_holds. destruct Hsize as [Hoff | ->]; [left; exact Hoff | right].
      apply N.eqb_refl. }
  unfold promotion_hook in Hhook. rewrite (bind_Done _ Hhook). reflexivity.
Qed.

(** C3, as the code has it.  Forced to fail by the debug-only hook,
    [promote] returns [NULL] at once: it neither allocates nor calls the
    failed-promotion handler.  When the hook does not fire and the
    allocation returns [NULL], [promote] ends exactly as the handler, called
    with this generation, the object and the size, ends.  A [NULL] result
    is an ordinary return value. *)
Theorem promote_on_failure
        (g : Generation) (obj : Z) (obj_size : N) (w w1 : World) (should_fail : bool) :
  size_checked rt obj obj_size w ->
  promotion_hook gch w = Done (should_fail, w1) ->
  (should_fail = true -> promote gch rt g obj obj_size w = Done (NULL, w1))
  /\ (should_fail = false ->
      forall w2 : World,
        allocate g obj_size false w1 = Done (NULL, w2) ->
        promote gch rt g obj obj_size w = handle_failed_promotion gch g obj obj_size w2).
Proof.
  intros Hsize Hhook. rewrite (promote_after_hook g _ _ _ _ _ Hsize Hhook). split.
  - intros ->. reflexivity.
  - intros -> w2 Halloc. rewrite (bind_Done _ Halloc). reflexivity.
Qed.

(** C4.  When the allocation succeeds, [promote] returns the address the
    allocator returned, the [obj_size] words of the object have been copied
    there from its old location (word-aligned and disjoint from the new
    one), and nothing else differs from the world the allocator left: the
    failed-promotion handler is not entered and no collection is started. *)
Theorem promote_copies_on_success
        (g : Generation) (obj : Z) (obj_size : N) (w w1 w2 : World) (result : Z) :
  size_checked rt obj obj_size w ->
  promotion_hook gch w = Done (false, w1) ->
  allocate g obj_size false w1 = Done (result, w2) ->
  result <> NULL ->
  Copy.aligned obj = true ->
  Copy.aligned result = true ->
  Copy.disjoint obj result obj_size = true ->
  exists w' : World,
    promote gch rt g obj obj_size w = Done (result, w')
    /\ (forall i : N,
          (i < obj_size)%N ->
          mem w' (result + Z.of_N i * HeapWordSize) = mem w2 (obj + Z.of_N i * HeapWordSize))
    /\ (forall a : Z,
          (forall i : N, (i < obj_size)%N -> a <> result + Z.of_N i * HeapWordSize) ->
          mem w' a = mem w2 a)
    /\ gclog w' = gclog w2.
Proof.
  intros Hsize Hhook Halloc Hnonnull Hobj Hres Hdisj.
  exists {| mem := Copy.copy_words obj result (N.to_nat obj_size) (mem w2);
            gclog := gclog w2 |}.
  split; [| split; [| split; [| reflexivity]]].
  - rewrite (promote_after_hook g _ _ _ _ _ Hsize Hhook), (bind_Done _ Halloc).
    destruct (Z.eqb_spec result NULL) as [Heq | _]; [contradiction |].
    cbn [negb]. unfold Copy.aligned_disjoint_words.
    erewrite bind_Done.
    2:{ erewrite bind_Done.
        2:{ apply assert_holds. right. rewrite Hobj, Hres. reflexivity. }
        erewrite bind_Done.
        2:{ apply assert_holds. right. exact Hdisj. }
        reflexivity. }
    reflexivity.
  - intros i Hi. cbn [mem].
    rewrite <- (N2Nat.id i), !nat_N_Z.
    apply copy_words_copied; [apply disjoint_true, Hdisj | lia].
  - intros a Hout. cbn [mem]. apply copy_words_elsewhere.
    intros i Hi. specialize (Hout (N.of_nat i) ltac:(lia)).
    rewrite nat_N_Z in Hout. exact Hout.
Qed.

(** C5.  [par_promote] of the base class aborts the VM whatever it is
    called with; it never returns an address. *)
Theorem par_promote_is_fatal
        (g : Generation) (thread_num obj m : Z) (word_sz : N) (w : World) :
  par_promote g thread_num obj m word_sz w = Fatal "ShouldNotCallThis()"
  /\ forall (a : Z) (w' : World), par_promote g thread_num obj m word_sz w <> Done (a, w').
Proof. split; [reflexivity | discriminate]. Qed.
End Promotion.

Lemma promote_on_failure_witness :
  ((true = true ->
    promote (cfg := LP64_debug) example_heap example_runtime old 64 2 example_world_failing
    = Done (NULL, example_world_failing))
   /\ (true = false ->
       forall w2 : World,
         allocate old 2 false example_world_failing = Done (NULL, w2) ->
         promote (cfg := LP64_debug) example_heap example_runtime old 64 2 example_world_failing
         = handle_failed_promotion example_heap old 64 2 w2))
  /\ promote (cfg := LP64_product) example_heap example_runtime young 64 8 example_world
     = handle_failed_promotion example_heap young 64 8 example_world.
Proof.
  split.
  - apply (promote_on_failure (cfg := LP64_debug) example_heap example_runtime old 64 2
             example_world_failing example_world_failing true).
    + right. vm_compute. reflexivity.
    + reflexivity.
  - apply (promote_on_failure (cfg := LP64_product) example_heap example_runtime young 64 8
             example_world example_world false).
    + left. reflexivity.
    + reflexivity.
    + reflexivity.
    + reflexivity.
Defined.

(** C3, as stated, fails: with the promotion-failure switch on, [promote]
    returns [NULL] although the handler, had it been called, would have
    found room at 4096. *)
Lemma promote_forced_failure_not_delegated :
  ~ forced_failure_is_delegated (cfg := LP64_debug) example_heap example_runtime old 64 2
      example_world_failing.
Proof.
  intros Hclaim. specialize (Hclaim example_world_failing eq_refl).
  apply (f_equal (fun o => match o with Done (a, _) => a | _ => 0 end)) in Hclaim.
  vm_compute in Hclaim. discriminate Hclaim.
Qed.

Lemma promote_copies_on_success_witness :
  exists w' : World,
    promote (cfg := LP64_debug) example_heap example_runtime old 64 2 example_world
    = Done (256, w')
    /\ (forall i : N,
          (i < 2)%N ->
          mem w' (256 + Z.of_N i * 8) = mem example_world_allocated (64 + Z.of_N i * 8))
    /\ (forall a : Z,
          (forall i : N, (i < 2)%N -> a <> 256 + Z.of_N i * 8) ->
          mem w' a = mem example_world_allocated a)
    /\ gclog w' = gclog example_world_allocated.
Proof.
  apply (promote_copies_on_success (cfg := LP64_debug) example_heap example_runtime old 64 2
           example_world example_world example_world_allocated 256).
  - right. vm_compute. reflexivity.
  - reflexivity.
  - reflexivity.
  - discriminate.
  - reflexivity.
  - reflexivity.
  - reflexivity.
Defined.

(** ** Iteration over the spaces *)

Section Iteration.
Context {B : Type}.
Variable do_space : Space.t -> B -> M B.

Lemma iterate_spaces_app (l1 l2 : list Space.t) (blk : B) (w : World) :
  iterate_spaces do_space (l1 ++ l2) blk w
  = bind (iterate_spaces do_space l1 blk) (iterate_spaces do_space l2) w.
Proof.
  revert blk w. induction l1 as [| s l1 IH]; intros blk w; [reflexivity |].
  cbn [iterate_spaces app]. unfold bind in *.
  destruct (do_space s blk w) as [[blk' w'] | msg |]; [| reflexivity | reflexivity].
  apply IH.
Qed.

(** Spaces that leave the closure and the world as they are can be skipped. *)
Lemma iterate_spaces_skip (l : list Space.t) (blk : B) (w : World) :
  (forall s, In s l -> do_space s blk w = Done (blk, w)) ->
  iterate_spaces do_space l blk w = Done (blk, w).
Proof.
  induction l as [| s l IH]; intros Hskip; [reflexivity |].
  cbn [iterate_spaces]. rewrite (bind_Done _ (Hskip s (or_introl eq_refl))).
  apply IH. intros s' Hin. apply Hskip. right. exact Hin.
Qed.

(** If the spaces before [s] are skipped and those after [s] leave what [s]
    produced as it is, the iteration ends as the visit of [s] alone. *)
Lemma iterate_spaces_only (l1 l2 : list Space.t) (s : Space.t) (blk blk' : B) (w : World) :
  (forall s', In s' l1 -> do_space s' blk w = Done (blk, w)) ->
  do_space s blk w = Done (blk', w) ->
  (forall s', In s' l2 -> do_space s' blk' w = Done (blk', w)) ->
  iterate_spaces do_space (l1 ++ s :: l2) blk w = Done (blk', w).
Proof.
  intros Hbefore Hs Hafter.
  rewrite iterate_spaces_app, (bind_Done _ (iterate_spaces_skip l1 blk w Hbefore)).
  cbn [iterate_spaces]. rewrite (bind_Done _ Hs).
  apply iterate_spaces_skip, Hafter.
Qed.
End Iteration.

(** ** Disjoint reserved extents *)

Lemma disjoint_reserved_after (w : World) (l1 l2 : list Space.t) (s : Space.t) (p : Z) :
  disjoint_reserved w (l1 ++ s :: l2) ->
  Space.is_in_reserved s w p = true ->
  forall s', In s' l2 -> Space.is_in_reserved s' w p = false.
Proof.
  intros Hdisj Hs s' Hin.
  destruct (Space.is_in_reserved s' w p) eqn:Hs'; [exfalso | reflexivity].
  destruct (In_nth_error _ _ Hin) as [j Hj].
  assert (Hpos : List.length l1 = (List.length l1 + S j)%nat).
  { apply (Hdisj _ _ s s' p); [| | exact Hs | exact Hs'].
    - rewrite nth_error_app2, Nat.sub_diag by lia. reflexivity.
    - rewrite nth_error_app2 by lia.
      replace (List.length l1 + S j - List.length l1)%nat with (S j) by lia. exact Hj. }
  lia.
Qed.

Lemma disjoint_reserved_before (w : World) (l1 l2 : list Space.t) (s : Space.t) (p : Z) :
  disjoint_reserved w (l1 ++ s :: l2) ->
  Space.is_in_reserved s w p = true ->
  forall s', In s' l1 -> Space.is_in_reserved s' w p = false.
Proof.
  intros Hdisj Hs s' Hin.
  destruct (Space.is_in_reserved s' w p) eqn:Hs'; [exfalso | reflexivity].
  destruct (In_nth_error _ _ Hin) as [j Hj].
  assert (Hlt : (j < List.length l1)%nat) by (apply nth_error_Some; congruence).
  assert (Hpos : j = List.length l1).
  { apply (Hdisj _ _ s' s p); [| | exact Hs' | exact Hs].
    - rewrite nth_error_app1 by exact Hlt. exact Hj.
    - rewrite nth_error_app2, Nat.sub_diag by lia. reflexivity. }
  lia.
Qed.

(** With disjoint extents, the space that contains [p] is the only one. *)
Lemma disjoint_reserved_split (w : World) (l : list Space.t) (s : Space.t) (p : Z) :
  disjoint_reserved w l ->
  In s l ->
  Space.is_in_reserved s w p = true ->
  exists l1 l2,
    l = l1 ++ s :: l2
    /\ (forall s', In s' l1 -> Space.is_in_reserved s' w p = false)
    /\ (forall s', In s' l2 -> Space.is_in_reserved s' w p = false).
Proof.
  intros Hdisj Hin Hs.
  destruct (in_split _ _ Hin) as [l1 [l2 ->]].
  exists l1, l2. split; [reflexivity | split].
  - exact (disjoint_reserved_before w l1 l2 s p Hdisj Hs).
  - exact (disjoint_reserved_after w l1 l2 s p Hdisj Hs).
Qed.


(** ** Block queries *)

Section Blocks.
Context {cfg : VMConfig}.

Lemma block_start_skip s blk w :
  Space.is_in_reserved s w (GenerationBlockStartClosure._p blk) = false ->
  GenerationBlockStartClosure.do_space s blk w = Done (blk, w).
Proof.
  intros H. unfold GenerationBlockStartClosure.do_space, query.
  rewrite H, andb_false_r. reflexivity.
Qed.

Lemma block_size_skip s blk w :
  Space.is_in_reserved s w (GenerationBlockSizeClosure._p blk) = false ->
  GenerationBlockSizeClosure.do_space s blk w = Done (blk, w).
Proof.
  intros H. unfold GenerationBlockSizeClosure.do_space, query.
  rewrite H, andb_false_r. reflexivity.
Qed.

Lemma block_is_obj_skip s blk w :
  Space.is_in_reserved s w (GenerationBlockIsObjClosure._p blk) = false ->
  GenerationBlockIsObjClosure.do_space s blk w = Done (blk, w).
Proof.
  intros H. unfold GenerationBlockIsObjClosure.do_space, query.
  rewrite H, andb_false_r. reflexivity.
Qed.

Lemma is_in_reserved_skip s blk w :
  Space.is_in_reserved s w (GenerationIsInReservedClosure._p blk) = false ->
  GenerationIsInReservedClosure.do_space s blk w = Done (blk, w).
Proof.
  intros H. unfold GenerationIsInReservedClosure.do_space, query.
  rewrite H. destruct blk as [p [s' |]]; reflexivity.
Qed.

Lemma is_in_reserved_found s blk w :
  GenerationIsInReservedClosure.sp blk <> None ->
  GenerationIsInReservedClosure.do_space s blk w = Done (blk, w).
Proof.
  intros H. unfold GenerationIsInReservedClosure.do_space, query.
  destruct blk as [p [s' |]]; [reflexivity | contradiction].
Qed.

Lemma block_start_found s blk w :
  GenerationBlockStartClosure._start blk <> NULL ->
  GenerationBlockStartClosure.do_space s blk w = Done (blk, w).
Proof.
  intros H. unfold GenerationBlockStartClosure.do_space, query.
  destruct (Z.eqb_spec (GenerationBlockStartClosure._start blk) NULL); [contradiction |].
  reflexivity.
Qed.

Lemma block_size_found s blk w :
  GenerationBlockSizeClosure.size blk <> 0%N ->
  GenerationBlockSizeClosure.do_space s blk w = Done (blk, w).
Proof.
  intros H. unfold GenerationBlockSizeClosure.do_space, query.
  destruct (N.eqb_spec (GenerationBlockSizeClosure.size blk) 0); [contradiction |].
  reflexivity.
Qed.

Lemma block_is_obj_found s blk w :
  GenerationBlockIsObjClosure.is_obj blk = true ->
  GenerationBlockIsObjClosure.do_space s blk w = Done (blk, w).
Proof.
  intros H. unfold GenerationBlockIsObjClosure.do_space, query.
  rewrite H. reflexivity.
Qed.

(** With disjoint reserved extents, [block_start] answers with the block
    start the one space containing [p] reports. *)
Lemma block_start_in_space (g : Generation) p w s :
  disjoint_reserved w (spaces g false) ->
  In s (spaces g false) ->
  Space.is_in_reserved s w p = true ->
  block_start g p w = Done (Space.block_start s w p, w).
Proof.
  intros Hdisj Hin Hs.
  destruct (disjoint_reserved_split w _ s p Hdisj Hin Hs) as [l1 [l2 [Hl [H1 H2]]]].
  unfold block_start, space_iterate. rewrite Hl.
  assert (Hrun : iterate_spaces GenerationBlockStartClosure.do_space (l1 ++ s :: l2)
                   (GenerationBlockStartClosure.new p) w
                 = Done ({| GenerationBlockStartClosure._p := p;
                            GenerationBlockStartClosure._start := Space.block_start s w p |}, w)).
  { apply iterate_spaces_only.
    - intros s' Hs'. apply block_start_skip, H1, Hs'.
    - unfold GenerationBlockStartClosure.do_space, query. cbn. rewrite Hs. reflexivity.
    - intros s' Hs'. apply block_start_skip, H2, Hs'. }
  rewrite (bind_Done _ Hrun). reflexivity.
Qed.

(** The closure of [block_size] keeps the first non-zero size reported by a
    space that contains the address. *)
Lemma block_size_iterate (l : list Space.t) :
  forall blk w,
  exists blk',
    iterate_spaces GenerationBlockSizeClosure.do_space l blk w = Done (blk', w)
    /\ GenerationBlockSizeClosure._p blk' = GenerationBlockSizeClosure._p blk
    /\ (GenerationBlockSizeClosure.size blk <> 0%N ->
        GenerationBlockSizeClosure.size blk' = GenerationBlockSizeClosure.size blk)
    /\ (GenerationBlockSizeClosure.size blk' = 0%N ->
        forall s, In s l ->
          Space.is_in_reserved s w (GenerationBlockSizeClosure._p blk) = true ->
          Space.block_size s w (GenerationBlockSizeClosure._p blk) = 0%N).
Proof.
  induction l as [| s l IH]; intros blk w.
  - exists blk. repeat split; try reflexivity. intros _ s [].
  - cbn [iterate_spaces]. unfold bind, GenerationBlockSizeClosure.do_space at 1, query.
    match goal with |- context [iterate_spaces _ l ?b w] => destruct (IH b w) as [blk' [Hrun [Hp [Hkeep Hzero]]]] end.
    exists blk'. split; [exact Hrun |].
    destruct (N.eqb_spec (GenerationBlockSizeClosure.size blk) 0) as [Hz | Hnz];
      destruct (Space.is_in_reserved s w (GenerationBlockSizeClosure._p blk)) eqn:Hs;
      cbn [andb GenerationBlockSizeClosure._p GenerationBlockSizeClosure.size] in *.
    + split; [exact Hp | split; [congruence |]].
      intros Hblk' s' [<- | Hin] Hs'.
      * destruct (N.eq_dec (Space.block_size s w (GenerationBlockSizeClosure._p blk)) 0)
          as [Hsz | Hsz]; [exact Hsz |]. rewrite (Hkeep Hsz) in Hblk'. contradiction.
      * apply (Hzero Hblk' s' Hin Hs').
    + split; [exact Hp | split; [congruence |]].
      intros Hblk' s' [<- | Hin] Hs'; [congruence |]. apply (Hzero Hblk' s' Hin Hs').
    + split; [exact Hp | split; [exact Hkeep |]].
      intros Hblk'. rewrite (Hkeep Hnz) in Hblk'. contradiction.
    + split; [exact Hp | split; [exact Hkeep |]].
      intros Hblk'. rewrite (Hkeep Hnz) in Hblk'. contradiction.
Qed.
End Blocks.

Section BlockTheorems.
Context {cfg : VMConfig}.

(** C6.  At an address that lies in the reserved extent of an owned space
    reporting a block there, [block_size] returns a strictly positive number
    of words and never zero; where assertions are compiled in, a zero size
    is never returned at any address: the VM aborts instead. *)
Theorem block_size_is_positive (g : Generation) (a : Z) (w : World) (s : Space.t) :
  In s (spaces g false) ->
  Space.is_in_reserved s w a = true ->
  (0 < Space.block_size s w a)%N ->
  (exists n : N, block_size g a w = Done (n, w) /\ (0 < n)%N)
  /\ (forall w' : World, block_size g a w <> Done (0%N, w'))
  /\ (ASSERT = true ->
      forall (p : Z) (w0 w' : World), block_size g p w0 <> Done (0%N, w')).
Proof.
  intros Hin Hs Hpos.
  assert (Hrun : exists n : N, block_size g a w = Done (n, w) /\ (0 < n)%N).
  { destruct (block_size_iterate (spaces g false) (GenerationBlockSizeClosure.new a) w)
      as [blk' [Hrun [_ [_ Hzero]]]].
    exists (GenerationBlockSizeClosure.size blk').
    assert (Hnz : (0 < GenerationBlockSizeClosure.size blk')%N).
    { destruct (N.eq_dec (GenerationBlockSizeClosure.size blk') 0) as [Hz | Hnz]; [| lia].
      specialize (Hzero Hz s Hin Hs). cbn in Hzero. lia. }
    split; [| exact Hnz].
    unfold block_size, space_iterate. rewrite (bind_Done _ Hrun).
    erewrite bind_Done; [reflexivity |].
    apply assert_holds. right. apply N.ltb_lt, Hnz. }
  split; [exact Hrun | split].
  - intros w' Hzero. destruct Hrun as [n [Hn Hpos']]. rewrite Hn in Hzero.
    injection Hzero as Hn0 _. lia.
  - intros Hassert p w0 w' Hzero.
    destruct (block_size_iterate (spaces g false) (GenerationBlockSizeClosure.new p) w0)
      as [blk' [Hrun' _]].
    unfold block_size, space_iterate in Hzero. rewrite (bind_Done _ Hrun') in Hzero.
    unfold bind, assert in Hzero. rewrite Hassert in Hzero.
    destruct (N.ltb_spec 0 (GenerationBlockSizeClosure.size blk')) as [Hlt | Hge];
      cbn in Hzero; [| discriminate Hzero].
    injection Hzero as Hn0 _. lia.
Qed.

(** C9.  [block_start] is idempotent at every address of a block in use of
    an owned space that honours the contract of [Space::block_start], the
    reserved extents of the owned spaces being disjoint. *)
Theorem block_start_is_idempotent (g : Generation) (a : Z) (w : World) (s : Space.t) :
  disjoint_reserved w (spaces g false) ->
  In s (spaces g false) ->
  block_start_contract w s ->
  Space.is_in s w a = true ->
  exists b : Z,
    block_start g a w = Done (b, w)
    /\ block_start g b w = Done (b, w)
    /\ (b' <- block_start g a ;; block_start g b') w = block_start g a w.
Proof.
  intros Hdisj Hin Hcontract Hused.
  destruct (Hcontract a Hused) as [Hres [_ [Hstart Hidem]]].
  pose proof (block_start_in_space g a w s Hdisj Hin Hres) as Ha.
  pose proof (block_start_in_space g _ w s Hdisj Hin Hstart) as Hb.
  rewrite Hidem in Hb.
  exists (Space.block_start s w a). split; [exact Ha | split; [exact Hb |]].
  rewrite (bind_Done _ Ha), Hb, Ha. reflexivity.
Qed.

(** C10, as the code has it.  At an address in no owned space's reserved
    extent [block_start] returns [NULL].  Otherwise [space_containing] returns the first space,
    in enumeration order, whose reserved extent contains the address,
    whatever the later spaces are; and [block_start], [block_size] and
    [block_is_obj] answer with what that space reports, the other spaces
    leaving the closure untouched -- the later ones because that space gave
    an answer other than [NULL], zero or false, or because, the reserved
    extents being disjoint, none of them contains the address. *)
Theorem lookup_consults_first_containing_space (g : Generation) (p : Z) (w : World) :
  ((forall s, In s (spaces g false) -> Space.is_in_reserved s w p = false) ->
   block_start g p w = Done (NULL, w))
  /\ (forall (l1 l2 : list Space.t) (s : Space.t),
        spaces g false = l1 ++ s :: l2 ->
        (forall s', In s' l1 -> Space.is_in_reserved s' w p = false) ->
        Space.is_in_reserved s w p = true ->
        space_containing g p w = Done (Some s, w)
        /\ (Space.block_start s w p <> NULL \/ disjoint_reserved w (spaces g false) ->
            block_start g p w = Done (Space.block_start s w p, w))
        /\ (Space.block_size s w p <> 0%N \/ disjoint_reserved w (spaces g false) ->
            block_size g p w
            = (assert (0 <? Space.block_size s w p)%N "seems reasonable" ;;
               ret (Space.block_size s w p)) w)
        /\ (Space.block_is_obj s w p = true \/ disjoint_reserved w (spaces g false) ->
            block_is_obj g p w = Done (Space.block_is_obj s w p, w))).
Proof.
  split.
  - intros Hnone. unfold block_start, space_iterate.
    rewrite (bind_Done _ (iterate_spaces_skip _ _ (GenerationBlockStartClosure.new p) w
                            (fun s Hin => block_start_skip s (GenerationBlockStartClosure.new p) w
                                            (Hnone s Hin)))).
    reflexivity.
  - intros l1 l2 s Hl Hbefore Hs.
    assert (Hafter : disjoint_reserved w (spaces g false) ->
                     forall s', In s' l2 -> Space.is_in_reserved s' w p = false).
    { intros Hdisj. rewrite Hl in Hdisj.
      exact (disjoint_reserved_after w l1 l2 s p Hdisj Hs). }
    split; [| split; [| split]].
    + unfold space_containing, space_iterate. rewrite Hl.
      assert (Hrun : iterate_spaces GenerationIsInReservedClosure.do_space (l1 ++ s :: l2)
                       (GenerationIsInReservedClosure.new p) w
                     = Done ({| GenerationIsInReservedClosure._p := p;
                                GenerationIsInReservedClosure.sp := Some s |}, w)).
      { apply iterate_spaces_only.
        - intros s' Hs'. apply is_in_reserved_skip, Hbefore, Hs'.
        - unfold GenerationIsInReservedClosure.do_space, query. cbn. rewrite Hs. reflexivity.
        - intros s' _. apply is_in_reserved_found. discriminate. }
      rewrite (bind_Done _ Hrun). reflexivity.
    + intros Hlater. unfold block_start, space_iterate. rewrite Hl.
      assert (Hrun : iterate_spaces GenerationBlockStartClosure.do_space (l1 ++ s :: l2)
                       (GenerationBlockStartClosure.new p) w
                     = Done ({| GenerationBlockStartClosure._p := p;
                                GenerationBlockStartClosure._start := Space.block_start s w p |}, w)).
      { apply iterate_spaces_only.
        - intros s' Hs'. apply block_start_skip, Hbefore, Hs'.
        - unfold GenerationBlockStartClosure.do_space, query. cbn. rewrite Hs. reflexivity.
        - intros s' Hs'. destruct Hlater as [Hanswer | Hdisj].
          + apply block_start_found, Hanswer.
          + apply block_start_skip, (Hafter Hdisj), Hs'. }
      rewrite (bind_Done _ Hrun). reflexivity.
    + intros Hlater. unfold block_size, space_iterate. rewrite Hl.
      assert (Hrun : iterate_spaces GenerationBlockSizeClosure.do_space (l1 ++ s :: l2)
                       (GenerationBlockSizeClosure.new p) w
                     = Done ({| GenerationBlockSizeClosure._p := p;
                                GenerationBlockSizeClosure.size := Space.block_size s w p |}, w)).
      { apply iterate_spaces_only.
        - intros s' Hs'. apply block_size_skip, Hbefore, Hs'.
        - unfold GenerationBlockSizeClosure.do_space, query. cbn. rewrite Hs. reflexivity.
        - intros s' Hs'. destruct Hlater as [Hanswer | Hdisj].
          + apply block_size_found, Hanswer.
          + apply block_size_skip, (Hafter Hdisj), Hs'. }
      rewrite (bind_Done _ Hrun). reflexivity.
    + intros Hlater. unfold block_is_obj, space_iterate. rewrite Hl.
      assert (Hrun : iterate_spaces GenerationBlockIsObjClosure.do_space (l1 ++ s :: l2)
                       (GenerationBlockIsObjClosure.new p) w
                     = Done ({| GenerationBlockIsObjClosure._p := p;
                                GenerationBlockIsObjClosure.is_obj := Space.block_is_obj s w p |}, w)).
      { apply iterate_spaces_only.
        - intros s' Hs'. apply block_is_obj_skip, Hbefore, Hs'.
        - unfold GenerationBlockIsObjClosure.do_space, query. cbn. rewrite Hs. reflexivity.
        - intros s' Hs'. destruct Hlater as [Hanswer | Hdisj].
          + apply block_is_obj_found, Hanswer.
          + apply block_is_obj_skip, (Hafter Hdisj), Hs'. }
      rewrite (bind_Done _ Hrun). reflexivity.
Qed.
End BlockTheorems.

Lemma example_spaces_disjoint : disjoint_reserved example_world (spaces young false).
Proof.
  intros i j s1 s2 p Hi Hj H1 H2.
  destruct i as [| [| [| i]]], j as [| [| [| j]]]; cbn in Hi, Hj;
    try reflexivity;
    try (destruct i; discriminate Hi); try (destruct j; discriminate Hj);
    injection Hi as <-; injection Hj as <-;
    cbn in H1, H2; apply andb_true_iff in H1, H2;
    rewrite Z.leb_le, Z.ltb_lt in H1, H2; lia.
Qed.

Lemma eden_block_start_contract : block_start_contract example_world eden.
Proof.
  intros a Ha. unfold eden, example_space in *.
  cbn [Space.is_in Space.is_in_reserved Space.block_start] in *.
  change (mem example_world 8) with 96 in *.
  apply andb_true_iff in Ha. rewrite Z.leb_le, Z.ltb_lt in Ha.
  destruct Ha as [Hlo Hhi].
  assert (Hdiv : 0 <= (a - 64) / 16 * 16 <= a - 64).
  { split; [apply Z.mul_nonneg_nonneg; [apply Z.div_pos |]; lia |].
    rewrite Z.mul_comm. apply Z.mul_div_le. lia. }
  destruct (Z.ltb_spec a 96) as [_ | Hge]; [| lia].
  destruct (Z.ltb_spec (64 + (a - 64) / 16 * 16) 96) as [_ | Hge]; [| lia].
  repeat split.
  - apply andb_true_iff. rewrite Z.leb_le, Z.ltb_lt. lia.
  - unfold NULL. lia.
  - apply andb_true_iff. rewrite Z.leb_le, Z.ltb_lt. lia.
  - replace (64 + (a - 64) / 16 * 16 - 64) with ((a - 64) / 16 * 16) by lia.
    rewrite Z.div_mul by lia. reflexivity.
Qed.

Lemma block_size_is_positive_witness :
  (exists n : N, block_size (cfg := LP64_debug) young 70 example_world = Done (n, example_world)
                 /\ (0 < n)%N)
  /\ (forall w' : World, block_size (cfg := LP64_debug) young 70 example_world <> Done (0%N, w'))
  /\ (@ASSERT LP64_debug = true ->
      forall (p : Z) (w0 w' : World),
        block_size (cfg := LP64_debug) young p w0 <> Done (0%N, w')).
Proof.
  apply (block_size_is_positive (cfg := LP64_debug) young 70 example_world eden).
  - left. reflexivity.
  - reflexivity.
  - reflexivity.
Defined.

Lemma block_start_is_idempotent_witness :
  exists b : Z,
    block_start young 70 example_world = Done (b, example_world)
    /\ block_start young b example_world = Done (b, example_world)
    /\ (b' <- block_start young 70 ;; block_start young b') example_world
       = block_start young 70 example_world.
Proof.
  apply (block_start_is_idempotent young 70 example_world eden).
  - exact example_spaces_disjoint.
  - left. reflexivity.
  - exact eden_block_start_contract.
  - reflexivity.
Defined.

Lemma lookup_consults_first_containing_space_witness :
  block_start young 1000 example_world = Done (NULL, example_world)
  /\ space_containing young 130 example_world = Done (Some survivor, example_world)
  /\ block_start young 130 example_world
     = Done (Space.block_start survivor example_world 130, example_world)
  /\ block_size (cfg := LP64_debug) young 130 example_world
     = (assert (cfg := LP64_debug) (0 <? Space.block_size survivor example_world 130)%N
               "seems reasonable" ;;
        ret (Space.block_size survivor example_world 130)) example_world
  /\ block_is_obj young 130 example_world
     = Done (Space.block_is_obj survivor example_world 130, example_world).
Proof.
  split.
  - apply (proj1 (lookup_consults_first_containing_space (cfg := LP64_debug)
                    young 1000 example_world)).
    intros s [<- | [<- | [<- | []]]]; reflexivity.
  - destruct (proj2 (lookup_consults_first_containing_space (cfg := LP64_debug)
                       young 130 example_world) [eden] [to_space] survivor eq_refl)
      as [Hcontaining Hblocks].
    + intros s' [<- | []]. reflexivity.
    + reflexivity.
    + destruct Hblocks as [Hstart [Hsize Hobj]].
      split; [| split; [| split]].
      * exact Hcontaining.
      * apply Hstart. right. exact example_spaces_disjoint.
      * apply Hsize. right. exact example_spaces_disjoint.
      * apply Hobj. right. exact example_spaces_disjoint.
Defined.

(** What the hypothesis of disjoint reserved extents is needed for: where
    extents overlap, a space that answers "not an object" does not end the
    search of [block_is_obj], and a later space containing the address is
    asked as well. *)
Example block_is_obj_falls_through_on_overlap :
  Space.is_in_reserved eden example_world 100 = true
  /\ Space.block_is_obj eden example_world 100 = false
  /\ block_is_obj overlapping 100 example_world = Done (true, example_world).
Proof. repeat split. Qed.

(** C10, as stated, fails: eden is the first space of [overlapping] whose
    reserved extent contains 100 and reports no object there, yet
    [block_is_obj] answers true, with what the later space reports. *)
Lemma first_containing_space_does_not_always_answer :
  ~ first_containing_space_answers (cfg := LP64_debug) overlapping 100 example_world.
Proof.
  intros Hclaim.
  destruct (Hclaim [] [example_space 96 160 48] eden eq_refl) as [_ [_ Hobj]].
  - intros s' [].
  - reflexivity.
  - vm_compute in Hobj. discriminate Hobj.
Qed.


(** ** Compaction *)

Section Compaction.
Context {cfg : VMConfig}.
Variable rt : Runtime.

(** Two continuations that agree give the same computation. *)
Lemma bind_ext {A B} (c : M A) (k1 k2 : A -> M B) (w : World) :
  (forall a w', k1 a w' = k2 a w') -> bind c k1 w = bind c k2 w.
Proof.
  intros Hk. unfold bind. destruct (c w) as [[a w'] | msg |]; [apply Hk | |]; reflexivity.
Qed.

Lemma prepare_for_compaction_from_chain (p : Z) (l : list Z) :
  compaction_chain rt p l ->
  forall (fuel : nat) (cp : Z) (w : World),
    (List.length l <= fuel)%nat ->
    prepare_for_compaction_from rt fuel cp p w
    = for_each (fun s => CompactibleSpace.prepare_for_compaction s cp)
               (map (compactible_space_at rt) l) w.
Proof.
  induction 1 as [| p l Hp Hchain IH]; intros fuel cp w Hfuel.
  - destruct fuel; reflexivity.
  - destruct fuel as [| fuel]; [simpl in Hfuel; lia |]. simpl in Hfuel.
    cbn [prepare_for_compaction_from map for_each].
    destruct (Z.eqb_spec p NULL) as [Heq | _]; [contradiction |].
    apply bind_ext. intros _ w'. apply IH. lia.
Qed.

Lemma compact_from_chain (p : Z) (l : list Z) :
  compaction_chain rt p l ->
  forall (fuel : nat) (w : World),
    (List.length l <= fuel)%nat ->
    compact_from rt fuel p w
    = for_each CompactibleSpace.compact (map (compactible_space_at rt) l) w.
Proof.
  induction 1 as [| p l Hp Hchain IH]; intros fuel w Hfuel.
  - destruct fuel; reflexivity.
  - destruct fuel as [| fuel]; [simpl in Hfuel; lia |]. simpl in Hfuel.
    cbn [compact_from map for_each].
    destruct (Z.eqb_spec p NULL) as [Heq | _]; [contradiction |].
    apply bind_ext. intros _ w'. apply IH. lia.
Qed.

Lemma adjust_pointers_each (l : list Space.t) (w : World) :
  iterate_spaces AdjustPointersClosure.do_space l tt w
  = for_each Space.adjust_pointers l w.
Proof.
  revert w. induction l as [| s l IH]; intros w; [reflexivity |].
  cbn [iterate_spaces for_each]. apply bind_ext. intros [] w'. apply IH.
Qed.

(** C7, as the code has it.  [prepare_for_compaction] and [compact] call
    the pass of exactly the spaces on the chain from
    [first_compaction_space()] along [next_compaction_space()], in that
    order, all calls of the first pass receiving the one [CompactPoint];
    [adjust_pointers] calls the pass of every space that [space_iterate]
    enumerates when called with [usedOnly] set, on the chain or not -- all
    owned spaces where the enumeration does not depend on the flag. *)
Theorem compaction_passes_visit
        (fuel : nat) (g : Generation) (cp : Z) (l : list Z) (w : World) :
  compaction_chain rt (first_compaction_space g) l ->
  (List.length l <= fuel)%nat ->
  prepare_for_compaction rt fuel g cp w
  = for_each (fun s => CompactibleSpace.prepare_for_compaction s cp)
             (map (compactible_space_at rt) l) w
  /\ compact rt fuel g w
     = for_each CompactibleSpace.compact (map (compactible_space_at rt) l) w
  /\ adjust_pointers g w = for_each Space.adjust_pointers (spaces g true) w
  /\ (spaces g true = spaces g false ->
      adjust_pointers g w = for_each Space.adjust_pointers (spaces g false) w).
Proof.
  intros Hchain Hfuel. split; [| split; [| split]].
  - apply prepare_for_compaction_from_chain; assumption.
  - apply compact_from_chain; assumption.
  - apply adjust_pointers_each.
  - intros Hsame. rewrite <- Hsame. apply adjust_pointers_each.
Qed.
End Compaction.

Lemma example_compaction_chain :
  compaction_chain example_runtime (first_compaction_space young) [1000; 2000].
Proof.
  apply compaction_chain_next; [discriminate |].
  apply compaction_chain_next; [discriminate |].
  apply compaction_chain_end.
Qed.

Lemma compaction_passes_visit_witness :
  prepare_for_compaction example_runtime 2 young 4000 example_world
  = for_each (fun s => CompactibleSpace.prepare_for_compaction s 4000)
             (map (compactible_space_at example_runtime) [1000; 2000]) example_world
  /\ compact example_runtime 2 young example_world
     = for_each CompactibleSpace.compact
                (map (compactible_space_at example_runtime) [1000; 2000]) example_world
  /\ adjust_pointers young example_world
     = for_each Space.adjust_pointers (spaces young true) example_world
  /\ (spaces young true = spaces young false ->
      adjust_pointers young example_world
      = for_each Space.adjust_pointers (spaces young false) example_world).
Proof.
  apply (compaction_passes_visit example_runtime 2 young 4000 [1000; 2000] example_world).
  - exact example_compaction_chain.
  - simpl. lia.
Defined.

(** C7, as stated, fails: in a generation whose [space_iterate] honours
    [usedOnly], [adjust_pointers] does not run its pass in the to-space,
    an owned space that is empty. *)
Lemma adjust_pointers_skips_unused_space :
  ~ adjust_pointers_visits_all_owned young_used_only example_world.
Proof.
  unfold adjust_pointers_visits_all_owned. intros Hclaim.
  apply (f_equal (fun o => match o with Done (_, w) => mem w (56 + 1024) | _ => 0 end))
    in Hclaim.
  vm_compute in Hclaim. discriminate Hclaim.
Qed.

(** The cursor runs on from eden into the survivor space: after the first
    pass it has advanced by the 32 bytes in use in eden and the 16 in use in
    the survivor space. *)
Example compaction_point_is_shared :
  exists w' : World,
    prepare_for_compaction example_runtime 2 young 4000 example_world = Done (tt, w')
    /\ mem w' 4000 = 48.
Proof. eexists. split; reflexivity. Qed.

(** The to-space is not on the compaction chain: [adjust_pointers] runs its
    pass there (once, as in eden), [compact] does not. *)
Example adjust_pointers_also_off_the_chain :
  exists w1 w2 : World,
    adjust_pointers young example_world = Done (tt, w1)
    /\ mem w1 (8 + 1024) = 1
    /\ mem w1 (56 + 1024) = 1
    /\ compact example_runtime 2 young example_world = Done (tt, w2)
    /\ mem w2 (48 + 2048) = 144
    /\ mem w2 (56 + 2048) = 0.
Proof. eexists. eexists. repeat split. Qed.

(** ** The reserved region over the lifetime of the generation *)

Section LifetimeTheorems.
Context {cfg : VMConfig}.
Variable gch : GenCollectedHeap.
Variable rt : Runtime.
Variable D : DoubleOps.
Variable diag : Diagnostics D.
Variable gen_policy : GenCollectorPolicy.
Variable rem_set : GenRemSet.t.
Variable it : SpaceIterators.

(** A call that hands the object back unchanged. *)
Lemma returns_same_object {A} (c : M A) (g g' : Generation) (w w' : World) :
  (c ;; ret g) w = Done (g', w') -> g' = g.
Proof.
  unfold bind, ret. destruct (c w) as [[a w1] | msg |]; [| discriminate | discriminate].
  intros H. injection H as H _. symmetry. exact H.
Qed.

Lemma new_Generation_reserved cls rs initial_size lvl w g w' :
  new_Generation rt cls rs initial_size lvl w = Done (g, w') ->
  VirtualSpace_initialize rt rs initial_size = Some (_virtual_space g)
  /\ _reserved g = {| start := low_boundary (_virtual_space g);
                      end_ := high_boundary (_virtual_space g) |}.
Proof.
  unfold new_Generation.
  destruct (VirtualSpace_initialize rt rs initial_size) as [vs |]; [| discriminate].
  unfold bind, ret.
  destruct ((if ZapUnusedHeapArea
             then mangle_region rt {| start := low vs; end_ := high vs |}
             else fun w0 => Done (tt, w0)) w) as [[u w1] | msg |];
    [| discriminate | discriminate].
  intros H. injection H as <- _. split; reflexivity.
Qed.

Lemma ref_processor_init_reserved g w g' w' :
  ref_processor_init rt g w = Done (g', w') -> _reserved g' = _reserved g.
Proof.
  unfold ref_processor_init, bind, assert, fatal, ret, vm_exit_during_initialization.
  destruct (ASSERT && negb (_ref_processor g =? NULL)); [discriminate |].
  destruct (ASSERT && negb (negb (is_empty (_reserved g)))); [discriminate |].
  destruct (new_ReferenceProcessor rt (_reserved g) w) as [[rp w1] | msg |];
    [| discriminate | discriminate].
  destruct (rp =? NULL); [discriminate |].
  intros H. injection H as <- _. reflexivity.
Qed.

Lemma call_reserved fuel op g w g' w' :
  call gch rt D diag gen_policy rem_set it fuel op g w = Done (g', w') ->
  _reserved g' = _reserved g /\ _virtual_space g' = _virtual_space g.
Proof.
  destruct op; cbn [call]; intros Hcall;
    try (rewrite (returns_same_object _ _ _ _ _ Hcall); split; reflexivity).
  split; [exact (ref_processor_init_reserved _ _ _ _ Hcall) |].
  revert Hcall.
  unfold ref_processor_init, bind, assert, fatal, ret, vm_exit_during_initialization.
  destruct (ASSERT && negb (_ref_processor g =? NULL)); [discriminate |].
  destruct (ASSERT && negb (negb (is_empty (_reserved g)))); [discriminate |].
  destruct (new_ReferenceProcessor rt (_reserved g) w) as [[rp w1] | msg |];
    [| discriminate | discriminate].
  destruct (rp =? NULL); [discriminate |].
  intros H. injection H as <- _. reflexivity.
Qed.

(** The reserved region and the boundaries of the virtual space are kept by
    every step. *)
Lemma reachable_reserved g0 w0 g w :
  reachable gch rt D diag gen_policy rem_set it g0 w0 g w ->
  _reserved g = _reserved g0
  /\ low_boundary (_virtual_space g) = low_boundary (_virtual_space g0)
  /\ high_boundary (_virtual_space g) = high_boundary (_virtual_space g0).
Proof.
  induction 1 as [| fuel op g w g' w' _ IH Hcall | g w vs' w' _ IH Hresized].
  - repeat split.
  - destruct (call_reserved _ _ _ _ _ _ Hcall) as [Hr Hvs].
    rewrite Hr, Hvs. exact IH.
  - destruct IH as [Hr [Hlow Hhigh]].
    destruct Hresized as [Hlow' [Hhigh' _]].
    cbn [with_virtual_space _reserved _virtual_space].
    rewrite Hlow', Hhigh'. repeat split; assumption.
Qed.

End LifetimeTheorems.

Lemma example_lifetime :
  reachable (cfg := LP64_debug) example_heap example_runtime whole_numbers
            example_diagnostics example_policy example_rem_set counting_iterators
            constructed_young example_world grown_young example_world.
Proof.
  apply (reachable_resize (cfg := LP64_debug) example_heap example_runtime whole_numbers
           example_diagnostics example_policy example_rem_set counting_iterators
           constructed_young example_world initialized_young example_world
           {| low_boundary := 64; high_boundary := 256; low := 64; high := 256 |}
           example_world).
  - apply (reachable_call (cfg := LP64_debug) example_heap example_runtime whole_numbers
             example_diagnostics example_policy example_rem_set counting_iterators
             constructed_young example_world 0 Call_ref_processor_init
             constructed_young example_world initialized_young example_world).
    + apply reachable_start.
    + vm_compute. reflexivity.
  - unfold resized. cbn. lia.
Qed.


(** * Further properties of the member functions *)

(** ** Containment and block queries over arbitrary spaces *)

Section Queries.
Context {cfg : VMConfig}.

Lemma is_in_iterate (l : list Space.t) :
  forall blk w,
  exists blk',
    iterate_spaces GenerationIsInClosure.do_space l blk w = Done (blk', w)
    /\ GenerationIsInClosure._p blk' = GenerationIsInClosure._p blk
    /\ has_space (GenerationIsInClosure.sp blk')
       = has_space (GenerationIsInClosure.sp blk)
         || existsb (fun s => Space.is_in s w (GenerationIsInClosure._p blk)) l.
Proof.
  induction l as [| s l IH]; intros blk w.
  - exists blk. cbn. rewrite orb_false_r. repeat split.
  - cbn [iterate_spaces existsb].
    unfold bind, GenerationIsInClosure.do_space at 1, query.
    destruct blk as [p [s0 |]]; cbn [GenerationIsInClosure._p GenerationIsInClosure.sp].
    + destruct (IH {| GenerationIsInClosure._p := p; GenerationIsInClosure.sp := Some s0 |} w)
        as [blk' [Hrun [Hp Hsp]]].
      exists blk'. split; [exact Hrun | split; [exact Hp |]].
      rewrite Hsp. reflexivity.
    + destruct (Space.is_in s w p).
      * destruct (IH {| GenerationIsInClosure._p := p; GenerationIsInClosure.sp := Some s |} w)
          as [blk' [Hrun [Hp Hsp]]].
        exists blk'. split; [exact Hrun | split; [exact Hp |]].
        rewrite Hsp. reflexivity.
      * destruct (IH {| GenerationIsInClosure._p := p; GenerationIsInClosure.sp := None |} w)
          as [blk' [Hrun [Hp Hsp]]].
        exists blk'. split; [exact Hrun | split; [exact Hp |]].
        rewrite Hsp. reflexivity.
Qed.

Lemma is_in_reserved_iterate (l : list Space.t) :
  forall blk w,
  exists blk',
    iterate_spaces GenerationIsInReservedClosure.do_space l blk w = Done (blk', w)
    /\ GenerationIsInReservedClosure._p blk' = GenerationIsInReservedClosure._p blk
    /\ GenerationIsInReservedClosure.sp blk'
       = match GenerationIsInReservedClosure.sp blk with
         | Some s0 => Some s0
         | None => find (fun s => Space.is_in_reserved s w (GenerationIsInReservedClosure._p blk)) l
         end.
Proof.
  induction l as [| s l IH]; intros blk w.
  - exists blk. cbn. destruct (GenerationIsInReservedClosure.sp blk); repeat split.
  - cbn [iterate_spaces find].
    unfold bind, GenerationIsInReservedClosure.do_space at 1, query.
    destruct blk as [p [s0 |]];
      cbn [GenerationIsInReservedClosure._p GenerationIsInReservedClosure.sp].
    + destruct (IH {| GenerationIsInReservedClosure._p := p;
                      GenerationIsInReservedClosure.sp := Some s0 |} w)
        as [blk' [Hrun [Hp Hsp]]].
      exists blk'. split; [exact Hrun | split; [exact Hp | exact Hsp]].
    + destruct (Space.is_in_reserved s w p).
      * destruct (IH {| GenerationIsInReservedClosure._p := p;
                        GenerationIsInReservedClosure.sp := Some s |} w)
          as [blk' [Hrun [Hp Hsp]]].
        exists blk'. split; [exact Hrun | split; [exact Hp | exact Hsp]].
      * destruct (IH {| GenerationIsInReservedClosure._p := p;
                        GenerationIsInReservedClosure.sp := None |} w)
          as [blk' [Hrun [Hp Hsp]]].
        exists blk'. split; [exact Hrun | split; [exact Hp | exact Hsp]].
Qed.

Lemma block_is_obj_iterate (l : list Space.t) :
  forall blk w,
  exists blk',
    iterate_spaces GenerationBlockIsObjClosure.do_space l blk w = Done (blk', w)
    /\ GenerationBlockIsObjClosure._p blk' = GenerationBlockIsObjClosure._p blk
    /\ GenerationBlockIsObjClosure.is_obj blk'
       = GenerationBlockIsObjClosure.is_obj blk
         || existsb (fun s => Space.is_in_reserved s w (GenerationBlockIsObjClosure._p blk)
                              && Space.block_is_obj s w (GenerationBlockIsObjClosure._p blk)) l.
Proof.
  induction l as [| s l IH]; intros blk w.
  - exists blk. cbn. rewrite orb_false_r. repeat split.
  - cbn [iterate_spaces existsb].
    unfold bind, GenerationBlockIsObjClosure.do_space at 1, query.
    destruct blk as [p b];
      cbn [GenerationBlockIsObjClosure._p GenerationBlockIsObjClosure.is_obj].
    match goal with
    | |- context [iterate_spaces _ l ?b1 w] =>
        destruct (IH b1 w) as [blk' [Hrun [Hp Hobj]]]
    end.
    exists blk'. split; [exact Hrun |].
    destruct b, (Space.is_in_reserved s w p), (Space.block_is_obj s w p);
      cbn in *; split; assumption.
Qed.

Lemma block_start_iterate (l : list Space.t) :
  forall blk w,
  exists blk',
    iterate_spaces GenerationBlockStartClosure.do_space l blk w = Done (blk', w)
    /\ GenerationBlockStartClosure._p blk' = GenerationBlockStartClosure._p blk
    /\ GenerationBlockStartClosure._start blk'
       = if GenerationBlockStartClosure._start blk =? NULL
         then first_block_start w (GenerationBlockStartClosure._p blk) l
         else GenerationBlockStartClosure._start blk.
Proof.
  induction l as [| s l IH]; intros blk w.
  - exists blk. cbn. unfold first_block_start. cbn.
    destruct (Z.eqb_spec (GenerationBlockStartClosure._start blk) NULL) as [-> | _];
      repeat split.
  - cbn [iterate_spaces].
    unfold bind, GenerationBlockStartClosure.do_space at 1, query.
    destruct blk as [p a];
      cbn [GenerationBlockStartClosure._p GenerationBlockStartClosure._start].
    match goal with
    | |- context [iterate_spaces _ l ?b1 w] =>
        destruct (IH b1 w) as [blk' [Hrun [Hp Hstart]]]
    end.
    exists blk'. split; [exact Hrun |].
    unfold first_block_start in *. cbn [find].
    destruct (Z.eqb_spec a NULL) as [-> | Hne];
      destruct (Space.is_in_reserved s w p) eqn:Hs;
      cbn [andb negb GenerationBlockStartClosure._p GenerationBlockStartClosure._start] in *.
    + split; [exact Hp |]. rewrite Hstart.
      destruct (Z.eqb_spec (Space.block_start s w p) NULL) as [Heq | _]; cbn [negb].
      * reflexivity.
      * reflexivity.
    + split; [exact Hp |]. rewrite Hstart. reflexivity.
    + split; [exact Hp |]. rewrite Hstart.
      destruct (Z.eqb_spec a NULL); [contradiction | reflexivity].
    + split; [exact Hp |]. rewrite Hstart.
      destruct (Z.eqb_spec a NULL); [contradiction | reflexivity].
Qed.

Lemma block_size_first (l : list Space.t) :
  forall blk w,
  exists blk',
    iterate_spaces GenerationBlockSizeClosure.do_space l blk w = Done (blk', w)
    /\ GenerationBlockSizeClosure._p blk' = GenerationBlockSizeClosure._p blk
    /\ GenerationBlockSizeClosure.size blk'
       = if (GenerationBlockSizeClosure.size blk =? 0)%N
         then first_block_size w (GenerationBlockSizeClosure._p blk) l
         else GenerationBlockSizeClosure.size blk.
Proof.
  induction l as [| s l IH]; intros blk w.
  - exists blk. cbn. unfold first_block_size. cbn.
    destruct (N.eqb_spec (GenerationBlockSizeClosure.size blk) 0) as [-> | _];
      repeat split.
  - cbn [iterate_spaces].
    unfold bind, GenerationBlockSizeClosure.do_space at 1, query.
    destruct blk as [p n];
      cbn [GenerationBlockSizeClosure._p GenerationBlockSizeClosure.size].
    match goal with
    | |- context [iterate_spaces _ l ?b1 w] =>
        destruct (IH b1 w) as [blk' [Hrun [Hp Hsize]]]
    end.
    exists blk'. split; [exact Hrun |].
    unfold first_block_size in *. cbn [find].
    destruct (N.eqb_spec n 0) as [-> | Hne];
      destruct (Space.is_in_reserved s w p) eqn:Hs;
      cbn [andb negb GenerationBlockSizeClosure._p GenerationBlockSizeClosure.size] in *.
    + split; [exact Hp |]. rewrite Hsize.
      destruct (N.eqb_spec (Space.block_size s w p) 0) as [Heq | _]; cbn [negb]; reflexivity.
    + split; [exact Hp |]. rewrite Hsize. reflexivity.
    + split; [exact Hp |]. rewrite Hsize.
      destruct (N.eqb_spec n 0); [contradiction | reflexivity].
    + split; [exact Hp |]. rewrite Hsize.
      destruct (N.eqb_spec n 0); [contradiction | reflexivity].
Qed.
End Queries.

Section QueryTheorems.
Context {cfg : VMConfig}.

(** X1.  [is_in(p)] is true exactly when one of the owned spaces reports [p]
    as in use; it leaves the world as it is. *)
Theorem is_in_iff_some_space_is_in (g : Generation) (p : Z) (w : World) :
  is_in g p w = Done (existsb (fun s => Space.is_in s w p) (spaces g false), w).
Proof.
  destruct (is_in_iterate (spaces g false) (GenerationIsInClosure.new p) w)
    as [blk' [Hrun [_ Hsp]]].
  unfold is_in, space_iterate. rewrite (bind_Done _ Hrun).
  cbn in Hsp. unfold ret. fold (has_space (GenerationIsInClosure.sp blk')).
  rewrite Hsp. reflexivity.
Qed.

(** X2.  [space_containing(p)] returns the first owned space whose reserved
    extent contains [p]: a space it returns is owned and contains [p], and it
    returns none exactly when no owned space contains [p]. *)
Theorem space_containing_is_first_containing (g : Generation) (p : Z) (w : World) :
  space_containing g p w
  = Done (find (fun s => Space.is_in_reserved s w p) (spaces g false), w)
  /\ (forall s, space_containing g p w = Done (Some s, w) ->
                In s (spaces g false) /\ Space.is_in_reserved s w p = true)
  /\ (space_containing g p w = Done (None, w)
      <-> forall s, In s (spaces g false) -> Space.is_in_reserved s w p = false).
Proof.
  assert (Hrun : space_containing g p w
                 = Done (find (fun s => Space.is_in_reserved s w p) (spaces g false), w)).
  { destruct (is_in_reserved_iterate (spaces g false) (GenerationIsInReservedClosure.new p) w)
      as [blk' [Hrun [_ Hsp]]].
    unfold space_containing, space_iterate. rewrite (bind_Done _ Hrun).
    cbn in Hsp. unfold ret. rewrite Hsp. reflexivity. }
  split; [exact Hrun | split].
  - intros s Hs. rewrite Hrun in Hs. injection Hs as Hfind.
    exact (find_some _ _ Hfind).
  - rewrite Hrun. split.
    + intros Hnone s Hin. injection Hnone as Hfind.
      exact (find_none _ _ Hfind s Hin).
    + intros Hnone. f_equal. f_equal.
      destruct (find (fun s => Space.is_in_reserved s w p) (spaces g false)) as [s |] eqn:Hfind;
        [| reflexivity].
      destruct (find_some _ _ Hfind) as [Hin Hs]. rewrite (Hnone s Hin) in Hs. discriminate.
Qed.

(** X3.  [block_is_obj(p)] is true exactly when some owned space contains
    [p] in its reserved extent and reports an object there; a containing
    space that reports none does not end the search. *)
Theorem block_is_obj_iff_some_space (g : Generation) (p : Z) (w : World) :
  block_is_obj g p w
  = Done (existsb (fun s => Space.is_in_reserved s w p && Space.block_is_obj s w p)
                  (spaces g false), w).
Proof.
  destruct (block_is_obj_iterate (spaces g false) (GenerationBlockIsObjClosure.new p) w)
    as [blk' [Hrun [_ Hobj]]].
  unfold block_is_obj, space_iterate. rewrite (bind_Done _ Hrun).
  cbn in Hobj. unfold ret. rewrite Hobj. reflexivity.
Qed.

(** X4.  [block_start(p)] returns the block start reported by the first
    owned space that contains [p] and reports a non-null one; hence a
    non-null result is always the answer of an owned space containing [p]. *)
Theorem block_start_is_first_answer (g : Generation) (p : Z) (w : World) :
  block_start g p w = Done (first_block_start w p (spaces g false), w)
  /\ (forall b, block_start g p w = Done (b, w) -> b <> NULL ->
                exists s, In s (spaces g false)
                          /\ Space.is_in_reserved s w p = true
                          /\ b = Space.block_start s w p).
Proof.
  assert (Hrun : block_start g p w = Done (first_block_start w p (spaces g false), w)).
  { destruct (block_start_iterate (spaces g false) (GenerationBlockStartClosure.new p) w)
      as [blk' [Hrun [_ Hstart]]].
    unfold block_start, space_iterate. rewrite (bind_Done _ Hrun).
    cbn in Hstart. unfold ret. rewrite Hstart. reflexivity. }
  split; [exact Hrun |].
  intros b Hb Hnonnull. rewrite Hrun in Hb. injection Hb as Hb.
  unfold first_block_start in Hb.
  destruct (find _ (spaces g false)) as [s |] eqn:Hfind; [| congruence].
  destruct (find_some _ _ Hfind) as [Hin Hs].
  apply andb_true_iff in Hs. destruct Hs as [Hs _].
  exists s. split; [exact Hin | split; [exact Hs | congruence]].
Qed.

(** X5.  [block_size(p)] is the size reported by the first owned space that
    contains [p] and reports a non-zero one, checked by the assertion.  At
    an address where no containing space reports a block -- in particular
    outside all reserved extents -- the VM aborts where assertions are
    compiled in, and zero is returned where they are not. *)
Theorem block_size_is_first_answer (g : Generation) (p : Z) (w : World) :
  block_size g p w
  = (assert (0 <? first_block_size w p (spaces g false))%N "seems reasonable" ;;
     ret (first_block_size w p (spaces g false))) w
  /\ ((forall s, In s (spaces g false) ->
                 Space.is_in_reserved s w p = false \/ Space.block_size s w p = 0%N) ->
      block_size g p w = if ASSERT then Fatal "seems reasonable" else Done (0%N, w)).
Proof.
  assert (Hrun : block_size g p w
                 = (assert (0 <? first_block_size w p (spaces g false))%N "seems reasonable" ;;
                    ret (first_block_size w p (spaces g false))) w).
  { destruct (block_size_first (spaces g false) (GenerationBlockSizeClosure.new p) w)
      as [blk' [Hrun [_ Hsize]]].
    unfold block_size, space_iterate. rewrite (bind_Done _ Hrun).
    cbn in Hsize. rewrite Hsize. reflexivity. }
  split; [exact Hrun |].
  intros Hnone. rewrite Hrun.
  assert (Hzero : first_block_size w p (spaces g false) = 0%N).
  { unfold first_block_size.
    destruct (find _ (spaces g false)) as [s |] eqn:Hfind; [| reflexivity].
    destruct (find_some _ _ Hfind) as [Hin Hs].
    apply andb_true_iff in Hs. destruct Hs as [Hs Hsz].
    destruct (Hnone s Hin) as [Hout | Hz]; [congruence |].
    rewrite Hz in Hsz. discriminate. }
  rewrite Hzero. unfold bind, assert. cbn. destruct ASSERT; reflexivity.
Qed.

(** X6.  An address that [is_in] reports as in use has a containing space,
    provided every owned space's used part lies in its reserved extent:
    [space_containing] then returns an owned space whose reserved extent
    contains it. *)
Theorem is_in_has_containing_space (g : Generation) (p : Z) (w : World) :
  (forall s, In s (spaces g false) ->
             Space.is_in s w p = true -> Space.is_in_reserved s w p = true) ->
  is_in g p w = Done (true, w) ->
  exists s, space_containing g p w = Done (Some s, w)
            /\ In s (spaces g false)
            /\ Space.is_in_reserved s w p = true.
Proof.
  intros Hused Hin.
  destruct (is_in_iterate (spaces g false) (GenerationIsInClosure.new p) w)
    as [blk1 [Hrun1 [_ Hsp1]]].
  unfold is_in, space_iterate in Hin. rewrite (bind_Done _ Hrun1) in Hin.
  unfold ret in Hin. fold (has_space (GenerationIsInClosure.sp blk1)) in Hin.
  injection Hin as Hin. rewrite Hsp1 in Hin. cbn in Hin.
  apply existsb_exists in Hin. destruct Hin as [s0 [Hs0 Hs0in]].
  destruct (is_in_reserved_iterate (spaces g false) (GenerationIsInReservedClosure.new p) w)
    as [blk2 [Hrun2 [_ Hsp2]]].
  cbn in Hsp2.
  destruct (find (fun s => Space.is_in_reserved s w p) (spaces g false)) as [s |] eqn:Hfind.
  - exists s. destruct (find_some _ _ Hfind) as [Hs Hsres].
    split; [| split; [exact Hs | exact Hsres]].
    unfold space_containing, space_iterate. rewrite (bind_Done _ Hrun2).
    unfold ret. rewrite Hsp2. reflexivity.
  - pose proof (find_none _ _ Hfind s0 Hs0) as Hcontra. cbn in Hcontra.
    rewrite (Hused s0 Hs0 Hs0in) in Hcontra. discriminate.
Qed.
End QueryTheorems.

(** ** More on the capacity check *)

Section CapacityMore.
Context {cfg : VMConfig}.
Variable gch : GenCollectedHeap.

Lemma max_available_bounds (w : World) (l : list Generation) (g' : Generation) :
  In g' l -> (contiguous_available g' w <= max_available w l)%N.
Proof.
  unfold max_available. induction l as [| g l IH]; intros Hin; [contradiction |].
  cbn [map fold_right]. destruct Hin as [-> | Hin]; [lia |].
  specialize (IH Hin). lia.
Qed.

Lemma max_available_attained (w : World) (l : list Generation) :
  l <> [] -> exists g', In g' l /\ max_available w l = contiguous_available g' w.
Proof.
  unfold max_available. induction l as [| g l IH]; intros Hne; [contradiction |].
  cbn [map fold_right]. destruct l as [| g1 l1].
  - exists g. split; [left; reflexivity |]. cbn. lia.
  - destruct (IH ltac:(discriminate)) as [g' [Hin Hmax]].
    destruct (N.max_spec (contiguous_available g w)
                (fold_right N.max 0%N (map (fun g0 : Generation => contiguous_available g0 w)
                                           (g1 :: l1)))) as [[_ Heq] | [_ Heq]];
      rewrite Heq.
    + exists g'. split; [right; exact Hin | exact Hmax].
    + exists g. split; [left; reflexivity | reflexivity].
Qed.

Lemma max_contiguous_available_run (fuel : nat) (g : Generation) (l : list Generation) (w : World) :
  generation_chain gch (Some g) l ->
  (List.length l <= fuel)%nat ->
  max_contiguous_available gch fuel g w = Done (max_available w l, w).
Proof.
  intros Hchain Hfuel. unfold max_contiguous_available.
  rewrite (max_contiguous_available_from_chain _ _ _ Hchain) by exact Hfuel.
  f_equal. f_equal. lia.
Qed.

Lemma promotion_attempt_is_safe_run (fuel : nat) (g : Generation) (l : list Generation)
      (n : N) (w : World) :
  generation_chain gch (Some g) l ->
  (List.length l <= fuel)%nat ->
  exists w', promotion_attempt_is_safe gch fuel g n w
             = Done ((n <=? max_available w l)%N, w').
Proof.
  intros Hchain Hfuel. unfold promotion_attempt_is_safe.
  rewrite (bind_Done _ (max_contiguous_available_run fuel g l w Hchain Hfuel)).
  destruct (PrintGC && Verbose); eexists; reflexivity.
Qed.

(** X7.  A promotion of [n] is reported safe as soon as one generation of
    the chain -- this one or a later one -- has [n] contiguous words
    available. *)
Theorem promotion_attempt_is_safe_when_room
        (fuel : nat) (g g' : Generation) (l : list Generation) (n : N) (w : World) :
  generation_chain gch (Some g) l ->
  (List.length l <= fuel)%nat ->
  In g' l ->
  (n <= contiguous_available g' w)%N ->
  exists w', promotion_attempt_is_safe gch fuel g n w = Done (true, w').
Proof.
  intros Hchain Hfuel Hin Hroom.
  destruct (promotion_attempt_is_safe_run fuel g l n w Hchain Hfuel) as [w' Hrun].
  exists w'. rewrite Hrun. f_equal. f_equal.
  apply N.leb_le. pose proof (max_available_bounds w l g' Hin). lia.
Qed.

(** X8.  The check is monotone: when a promotion of [n] is reported safe, so
    is a promotion of any smaller size in the same state. *)
Theorem promotion_attempt_is_safe_for_smaller
        (fuel : nat) (g : Generation) (l : list Generation) (n m : N) (w w1 : World) :
  generation_chain gch (Some g) l ->
  (List.length l <= fuel)%nat ->
  promotion_attempt_is_safe gch fuel g n w = Done (true, w1) ->
  (m <= n)%N ->
  exists w2, promotion_attempt_is_safe gch fuel g m w = Done (true, w2).
Proof.
  intros Hchain Hfuel Hsafe Hle.
  destruct (promotion_attempt_is_safe_run fuel g l n w Hchain Hfuel) as [w' Hn].
  rewrite Hn in Hsafe. injection Hsafe as Hsafe _. apply N.leb_le in Hsafe.
  destruct (promotion_attempt_is_safe_run fuel g l m w Hchain Hfuel) as [w2 Hm].
  exists w2. rewrite Hm. f_equal. f_equal. apply N.leb_le. lia.
Qed.

(** X9.  What [max_contiguous_available()] returns is at least the
    [contiguous_available()] of every generation of the chain, and is the
    [contiguous_available()] of one of them. *)
Theorem max_contiguous_available_is_attained
        (fuel : nat) (g : Generation) (l : list Generation) (w : World) :
  generation_chain gch (Some g) l ->
  (List.length l <= fuel)%nat ->
  exists max : N,
    max_contiguous_available gch fuel g w = Done (max, w)
    /\ (forall g', In g' l -> (contiguous_available g' w <= max)%N)
    /\ (exists g', In g' l /\ max = contiguous_available g' w).
Proof.
  intros Hchain Hfuel. exists (max_available w l).
  split; [exact (max_contiguous_available_run fuel g l w Hchain Hfuel) | split].
  - intros g' Hin. exact (max_available_bounds w l g' Hin).
  - apply max_available_attained. inversion Hchain. discriminate.
Qed.

Lemma max_contiguous_available_from_level_0 (o : Generation) :
  old_gen gch = Some o ->
  level o = 0 ->
  forall (fuel : nat) (x : Generation) (max : N) (w : World),
    level x = 0 ->
    max_contiguous_available_from gch fuel (Some x) max w = OutOfFuel.
Proof.
  intros Hold Ho. induction fuel as [| fuel IH]; intros x max w Hx; [reflexivity |].
  cbn [max_contiguous_available_from]. rewrite bind_query.
  unfold next_gen. rewrite Hx, Hold. cbn. apply IH. exact Ho.
Qed.

(** X10.  The loop of [max_contiguous_available] ends only at a generation
    of a level other than 0: in a heap whose old generation has level 0, the
    walk from a level-0 generation uses up every budget, and so does
    [promotion_attempt_is_safe]. *)
Theorem max_contiguous_available_needs_terminal_old_gen
        (g o : Generation) (n : N) (fuel : nat) (w : World) :
  level g = 0 ->
  old_gen gch = Some o ->
  level o = 0 ->
  max_contiguous_available gch fuel g w = OutOfFuel
  /\ promotion_attempt_is_safe gch fuel g n w = OutOfFuel.
Proof.
  intros Hg Hold Ho.
  assert (Hrun : max_contiguous_available gch fuel g w = OutOfFuel).
  { apply (max_contiguous_available_from_level_0 o Hold Ho). exact Hg. }
  split; [exact Hrun |].
  unfold promotion_attempt_is_safe, bind. rewrite Hrun. reflexivity.
Qed.
End CapacityMore.

(** ** More on promotion *)

Section PromotionMore.
Context {cfg : VMConfig}.
Variable gch : GenCollectedHeap.
Variable rt : Runtime.

Lemma assert_Done (cond : bool) (msg : string) (w w' : World) (u : unit) :
  assert cond msg w = Done (u, w') -> w' = w.
Proof.
  unfold assert, fatal, ret. destruct (ASSERT && negb cond); [discriminate |].
  intros H. injection H as _ H. symmetry. exact H.
Qed.

(** X11.  Where assertions are compiled in, [promote] called with a size
    other than the size of the object aborts the VM, before the hook, the
    allocator or the handler is asked. *)
Theorem promote_with_bad_size_is_fatal
        (g : Generation) (obj : Z) (obj_size : N) (w : World) :
  ASSERT = true ->
  obj_size <> size_t_of_int (oop_size rt w obj) ->
  promote gch rt g obj obj_size w = Fatal "bad obj_size passed in".
Proof.
  intros Hassert Hsize. unfold promote. rewrite bind_query.
  unfold bind, assert. rewrite Hassert.
  destruct (N.eqb_spec obj_size (size_t_of_int (oop_size rt w obj))); [contradiction |].
  reflexivity.
Qed.

(** X12.  [promote] does not make up addresses: a non-null address it
    returns was returned by this generation's [allocate] or, after the
    allocation failed, by the failed-promotion handler; and the hook had not
    fired. *)
Theorem promote_result_comes_from_allocator_or_handler
        (g : Generation) (obj : Z) (obj_size : N) (w w' : World) (r : Z) :
  promote gch rt g obj obj_size w = Done (r, w') ->
  r <> NULL ->
  exists w1 w2 : World,
    promotion_hook gch w = Done (false, w1)
    /\ (allocate g obj_size false w1 = Done (r, w2)
        \/ (allocate g obj_size false w1 = Done (NULL, w2)
            /\ handle_failed_promotion gch g obj obj_size w2 = Done (r, w'))).
Proof.
  unfold promote, promotion_hook. rewrite bind_query. unfold bind at 1.
  destruct (assert (obj_size =? size_t_of_int (oop_size rt w obj))%N
                   "bad obj_size passed in" w) as [[u wa] | msg |] eqn:Ha;
    [| discriminate | discriminate].
  apply assert_Done in Ha. subst wa. unfold bind at 1.
  destruct ((if PRODUCT then ret false else promotion_should_fail gch) w)
    as [[should_fail w1] | msg |] eqn:Hhook; [| discriminate | discriminate].
  destruct should_fail.
  - unfold ret. intros H Hr. injection H as H _. congruence.
  - unfold bind at 1.
    destruct (allocate g obj_size false w1) as [[a w2] | msg |] eqn:Halloc;
      [| discriminate | discriminate].
    destruct (Z.eqb_spec a NULL) as [-> | Hne]; cbn [negb].
    + intros H _. exists w1, w2. split; [reflexivity | right].
      split; [exact Halloc | exact H].
    + unfold bind, ret.
      destruct (Copy.aligned_disjoint_words obj a obj_size w2) as [[u' w3] | msg |];
        [| discriminate | discriminate].
      intros H _. injection H as H _. subst a.
      exists w1, w2. split; [reflexivity | left; exact Halloc].
Qed.
End PromotionMore.

(** ** The reference processor *)

Section ReferenceProcessor.
Context {cfg : VMConfig}.
Variable gch : GenCollectedHeap.
Variable rt : Runtime.
Variable D : DoubleOps.
Variable diag : Diagnostics D.
Variable gen_policy : GenCollectorPolicy.
Variable rem_set : GenRemSet.t.
Variable it : SpaceIterators.

(** What a returning [ref_processor_init] has done. *)
Lemma ref_processor_init_Done (g g' : Generation) (w w' : World) :
  ref_processor_init rt g w = Done (g', w') ->
  new_ReferenceProcessor rt (_reserved g) w = Done (_ref_processor g', w')
  /\ _ref_processor g' <> NULL
  /\ _level g' = _level g
  /\ _virtual_space g' = _virtual_space g
  /\ _reserved g' = _reserved g
  /\ impl g' = impl g
  /\ (ASSERT = true -> _ref_processor g = NULL /\ is_empty (_reserved g) = false).
Proof.
  unfold ref_processor_init, bind, assert, fatal, ret, vm_exit_during_initialization.
  destruct ASSERT.
  - destruct (Z.eqb_spec (_ref_processor g) NULL) as [Hnull | _]; cbn; [| discriminate].
    destruct (is_empty (_reserved g)); cbn; [discriminate |].
    destruct (new_ReferenceProcessor rt (_reserved g) w) as [[rp w1] | msg |];
      [| discriminate | discriminate].
    destruct (Z.eqb_spec rp NULL) as [_ | Hrp]; [discriminate |].
    intros H. injection H as <- <-. cbn. repeat split; try assumption; reflexivity.
  - cbn.
    destruct (new_ReferenceProcessor rt (_reserved g) w) as [[rp w1] | msg |];
      [| discriminate | discriminate].
    destruct (Z.eqb_spec rp NULL) as [_ | Hrp]; [discriminate |].
    intros H. injection H as <- <-. cbn. repeat split; try assumption; discriminate.
Qed.

(** X13.  A [ref_processor_init] that returns has installed the non-null
    processor that was allocated for the reserved region, and has changed
    no other member of the generation; a failed allocation, or -- where
    assertions are compiled in -- an empty reserved region, never lets it
    return. *)
Theorem ref_processor_init_installs_processor
        (g g' : Generation) (w w' : World) :
  ref_processor_init rt g w = Done (g', w') ->
  new_ReferenceProcessor rt (_reserved g) w = Done (_ref_processor g', w')
  /\ _ref_processor g' <> NULL
  /\ _level g' = _level g
  /\ _virtual_space g' = _virtual_space g
  /\ _reserved g' = _reserved g
  /\ impl g' = impl g
  /\ (ASSERT = true -> is_empty (_reserved g) = false).
Proof.
  intros Hinit.
  destruct (ref_processor_init_Done g g' w w' Hinit) as [Hnew [Hrp [Hl [Hvs [Hr [Hi Ha]]]]]].
  repeat split; try assumption. intros Hassert. apply (Ha Hassert).
Qed.

(** X14.  Where assertions are compiled in, [ref_processor_init] succeeds at
    most once: on the generation a successful call has left, every further
    call aborts the VM. *)
Theorem ref_processor_init_twice_is_fatal
        (g g' : Generation) (w w' w2 : World) :
  ASSERT = true ->
  ref_processor_init rt g w = Done (g', w') ->
  ref_processor_init rt g' w2 = Fatal "a reference processor already exists".
Proof.
  intros Hassert Hinit.
  destruct (ref_processor_init_Done g g' w w' Hinit) as [_ [Hrp _]].
  unfold ref_processor_init, bind, assert. rewrite Hassert.
  destruct (Z.eqb_spec (_ref_processor g') NULL); [contradiction | reflexivity].
Qed.

Lemma call_members (fuel : nat) (op : operation D) (g g' : Generation) (w w' : World) :
  call gch rt D diag gen_policy rem_set it fuel op g w = Done (g', w') ->
  _level g' = _level g
  /\ impl g' = impl g
  /\ (ASSERT = true -> _ref_processor g <> NULL -> _ref_processor g' = _ref_processor g).
Proof.
  destruct op; cbn [call]; intros Hcall;
    try (rewrite (returns_same_object _ _ _ _ _ Hcall); repeat split; reflexivity).
  destruct (ref_processor_init_Done g g' w w' Hcall) as [_ [_ [Hl [_ [_ [Hi Ha]]]]]].
  repeat split; try assumption.
  intros Hassert Hset. destruct (Ha Hassert) as [Hnull _]. contradiction.
Qed.

End ReferenceProcessor.

(** ** [spec()], the iterators and endless compaction chains *)

Section Remaining.
Context {cfg : VMConfig}.
Variable gch : GenCollectedHeap.
Variable rt : Runtime.

(** X16.  [spec()] and [next_gen()] read the level alike: at level 0 the
    generation gets the young spec and is followed by the old generation; at
    every other level it has no successor and, if [spec()] returns at all,
    gets the old spec -- and at a level other than 0 and 1 [spec()] returns
    only where assertions are compiled out. *)
Theorem spec_agrees_with_next_gen
        (gen_policy : GenCollectorPolicy) (g : Generation) (w : World) :
  (level g = 0 ->
   spec gen_policy g w = Done (young_gen_spec gen_policy, w)
   /\ next_gen gch g = old_gen gch)
  /\ (level g = 1 ->
      spec gen_policy g w = Done (old_gen_spec gen_policy, w)
      /\ next_gen gch g = None)
  /\ (level g <> 0 -> level g <> 1 ->
      spec gen_policy g w
      = (if ASSERT then Fatal "Bad gen level" else Done (old_gen_spec gen_policy, w))
      /\ next_gen gch g = None).
Proof.
  unfold spec, next_gen, bind, assert, fatal, ret. split; [| split].
  - intros Hlevel. rewrite Hlevel. cbn. rewrite andb_false_r. split; reflexivity.
  - intros Hlevel. rewrite Hlevel. cbn. rewrite andb_false_r. split; reflexivity.
  - intros Hnot0 Hnot1.
    destruct (Z.eqb_spec (level g) 0); [contradiction |].
    destruct (Z.eqb_spec (level g) 1); [contradiction |].
    cbn. rewrite andb_true_r. destruct ASSERT; split; reflexivity.
Qed.

Lemma iterate_with_fixed_closure {B} (do_space : Space.t -> B -> M B)
      (f : Space.t -> M unit) (blk : B) (l : list Space.t) :
  (forall s w, do_space s blk w = (f s ;; ret blk) w) ->
  forall w, (iterate_spaces do_space l blk ;; ret tt) w = for_each f l w.
Proof.
  intros Hstep. induction l as [| s l IH]; intros w; [reflexivity |].
  cbn [iterate_spaces for_each]. unfold bind. rewrite Hstep. unfold bind, ret.
  destruct (f s w) as [[u w1] | msg |]; [| reflexivity | reflexivity].
  exact (IH w1).
Qed.

(** X17.  [oop_iterate], [object_iterate] and [safe_object_iterate] apply
    the space's iterator, with the caller's closure, to every space that
    [space_iterate] enumerates, once each and in that order, up to the first
    one that does not return. *)
Theorem iterators_visit_every_space
        (it : SpaceIterators) (g : Generation) (cl : Z) (w : World) :
  oop_iterate it g cl w
  = for_each (fun s => Space_oop_iterate it s cl) (spaces g false) w
  /\ object_iterate it g cl w
     = for_each (fun s => Space_object_iterate it s cl) (spaces g false) w
  /\ safe_object_iterate it g cl w
     = for_each (fun s => Space_safe_object_iterate it s cl) (spaces g false) w.
Proof.
  split; [| split].
  - apply (iterate_with_fixed_closure (GenerationOopIterateClosure.do_space it)
             (fun s => Space_oop_iterate it s cl)). reflexivity.
  - apply (iterate_with_fixed_closure (GenerationObjIterateClosure.do_space it)
             (fun s => Space_object_iterate it s cl)). reflexivity.
  - apply (iterate_with_fixed_closure (GenerationSafeObjIterateClosure.do_space it)
             (fun s => Space_safe_object_iterate it s cl)). reflexivity.
Qed.

(** X18.  The loops of [prepare_for_compaction] and [compact] end only at a
    null successor: when the first compactible space is its own successor
    and its passes return, both use up every budget. *)
Theorem compaction_needs_a_chain_that_ends
        (g : Generation) (cp : Z) (fuel : nat) (w : World) :
  first_compaction_space g <> NULL ->
  CompactibleSpace.next_compaction_space (compactible_space_at rt (first_compaction_space g))
  = first_compaction_space g ->
  (forall w0, exists w1,
      CompactibleSpace.prepare_for_compaction
        (compactible_space_at rt (first_compaction_space g)) cp w0 = Done (tt, w1)) ->
  (forall w0, exists w1,
      CompactibleSpace.compact (compactible_space_at rt (first_compaction_space g)) w0
      = Done (tt, w1)) ->
  prepare_for_compaction rt fuel g cp w = OutOfFuel
  /\ compact rt fuel g w = OutOfFuel.
Proof.
  intros Hnonnull Hself Hprepare Hcompact.
  unfold prepare_for_compaction, compact. split.
  - revert w. induction fuel as [| fuel IH]; intros w;
      cbn [prepare_for_compaction_from];
      destruct (Z.eqb_spec (first_compaction_space g) NULL) as [Heq | _];
      try contradiction; [reflexivity |].
    destruct (Hprepare w) as [w1 Hw1]. rewrite (bind_Done _ Hw1), Hself. apply IH.
  - revert w. induction fuel as [| fuel IH]; intros w;
      cbn [compact_from];
      destruct (Z.eqb_spec (first_compaction_space g) NULL) as [Heq | _];
      try contradiction; [reflexivity |].
    destruct (Hcompact w) as [w1 Hw1]. rewrite (bind_Done _ Hw1), Hself. apply IH.
Qed.
End Remaining.

(** ** The further properties at work on the example heap *)

Lemma space_containing_is_first_containing_witness :
  (In survivor (spaces young false)
   /\ Space.is_in_reserved survivor example_world 130 = true)
  /\ (forall s, In s (spaces young false) -> Space.is_in_reserved s example_world 1000 = false).
Proof.
  split.
  - apply (proj1 (proj2 (space_containing_is_first_containing young 130 example_world))
             survivor).
    reflexivity.
  - apply (proj1 (proj2 (proj2 (space_containing_is_first_containing
                                  young 1000 example_world)))).
    reflexivity.
Defined.

Lemma block_start_is_first_answer_witness :
  exists s, In s (spaces young false)
            /\ Space.is_in_reserved s example_world 70 = true
            /\ 64 = Space.block_start s example_world 70.
Proof.
  apply (proj2 (block_start_is_first_answer young 70 example_world) 64).
  - reflexivity.
  - discriminate.
Defined.

Lemma block_size_is_first_answer_witness :
  block_size (cfg := LP64_debug) young 1000 example_world = Fatal "seems reasonable"
  /\ block_size (cfg := LP64_product) young 1000 example_world = Done (0%N, example_world).
Proof.
  split.
  - apply (proj2 (block_size_is_first_answer (cfg := LP64_debug) young 1000 example_world)).
    intros s [<- | [<- | [<- | []]]]; left; reflexivity.
  - apply (proj2 (block_size_is_first_answer (cfg := LP64_product) young 1000 example_world)).
    intros s [<- | [<- | [<- | []]]]; left; reflexivity.
Defined.

Lemma is_in_has_containing_space_witness :
  exists s, space_containing young 70 example_world = Done (Some s, example_world)
            /\ In s (spaces young false)
            /\ Space.is_in_reserved s example_world 70 = true.
Proof.
  apply (is_in_has_containing_space young 70 example_world).
  - intros s [<- | [<- | [<- | []]]] Hused; first [reflexivity | discriminate Hused].
  - reflexivity.
Defined.

Lemma promotion_attempt_is_safe_when_room_witness :
  exists w', promotion_attempt_is_safe (cfg := LP64_debug) example_heap 2 young 32 example_world
             = Done (true, w').
Proof.
  apply (promotion_attempt_is_safe_when_room (cfg := LP64_debug) example_heap
           2 young old [young; old] 32 example_world).
  - exact example_generation_chain.
  - simpl. lia.
  - right. left. reflexivity.
  - vm_compute. discriminate.
Defined.

Lemma promotion_attempt_is_safe_for_smaller_witness :
  exists w2, promotion_attempt_is_safe (cfg := LP64_product) example_heap 2 young 4 example_world
             = Done (true, w2).
Proof.
  apply (promotion_attempt_is_safe_for_smaller (cfg := LP64_product) example_heap
           2 young [young; old] 32 4 example_world example_world).
  - exact example_generation_chain.
  - simpl. lia.
  - reflexivity.
  - lia.
Defined.

Lemma max_contiguous_available_is_attained_witness :
  exists max : N,
    max_contiguous_available example_heap 2 young example_world = Done (max, example_world)
    /\ (forall g', In g' [young; old] -> (contiguous_available g' example_world <= max)%N)
    /\ (exists g', In g' [young; old] /\ max = contiguous_available g' example_world).
Proof.
  apply (max_contiguous_available_is_attained example_heap 2 young [young; old] example_world).
  - exact example_generation_chain.
  - simpl. lia.
Defined.

Lemma max_contiguous_available_needs_terminal_old_gen_witness :
  max_contiguous_available looping_heap 5 young example_world = OutOfFuel
  /\ promotion_attempt_is_safe (cfg := LP64_debug) looping_heap 5 young 1 example_world
     = OutOfFuel.
Proof.
  apply (max_contiguous_available_needs_terminal_old_gen (cfg := LP64_debug) looping_heap
           young young 1 5 example_world); reflexivity.
Defined.

Lemma promote_with_bad_size_is_fatal_witness :
  promote (cfg := LP64_debug) example_heap example_runtime old 64 3 example_world
  = Fatal "bad obj_size passed in".
Proof.
  apply (promote_with_bad_size_is_fatal (cfg := LP64_debug) example_heap example_runtime
           old 64 3 example_world).
  - reflexivity.
  - vm_compute. discriminate.
Defined.

Lemma promote_result_comes_from_allocator_or_handler_witness :
  exists w1 w2 : World,
    promotion_hook (cfg := LP64_debug) example_heap example_world = Done (false, w1)
    /\ (allocate old 2 false w1 = Done (256, w2)
        \/ (allocate old 2 false w1 = Done (NULL, w2)
            /\ handle_failed_promotion example_heap old 64 2 w2
               = Done (256, example_world_promoted))).
Proof.
  apply (promote_result_comes_from_allocator_or_handler (cfg := LP64_debug)
           example_heap example_runtime old 64 2 example_world example_world_promoted 256).
  - reflexivity.
  - discriminate.
Defined.

Lemma ref_processor_init_installs_processor_witness :
  new_ReferenceProcessor example_runtime (_reserved constructed_young) example_world
  = Done (_ref_processor initialized_young, example_world)
  /\ _ref_processor initialized_young <> NULL
  /\ _level initialized_young = _level constructed_young
  /\ _virtual_space initialized_young = _virtual_space constructed_young
  /\ _reserved initialized_young = _reserved constructed_young
  /\ impl initialized_young = impl constructed_young
  /\ (@ASSERT LP64_debug = true ->
      is_empty (cfg := LP64_debug) (_reserved constructed_young) = false).
Proof.
  apply (ref_processor_init_installs_processor (cfg := LP64_debug) example_runtime
           constructed_young initialized_young example_world example_world).
  vm_compute. reflexivity.
Defined.

Lemma ref_processor_init_twice_is_fatal_witness :
  ref_processor_init (cfg := LP64_debug) example_runtime initialized_young example_world
  = Fatal "a reference processor already exists".
Proof.
  apply (ref_processor_init_twice_is_fatal (cfg := LP64_debug) example_runtime
           constructed_young initialized_young example_world example_world example_world).
  - reflexivity.
  - vm_compute. reflexivity.
Defined.


Lemma spec_agrees_with_next_gen_witness :
  (spec (cfg := LP64_debug) example_policy young example_world = Done (5000, example_world)
   /\ next_gen example_heap young = old_gen example_heap)
  /\ (spec (cfg := LP64_debug) example_policy old example_world = Done (6000, example_world)
      /\ next_gen example_heap old = None)
  /\ (spec (cfg := LP64_debug) example_policy misleveled example_world = Fatal "Bad gen level"
      /\ next_gen example_heap misleveled = None).
Proof.
  split; [| split].
  - apply (proj1 (spec_agrees_with_next_gen (cfg := LP64_debug) example_heap
                    example_policy young example_world)).
    reflexivity.
  - apply (proj1 (proj2 (spec_agrees_with_next_gen (cfg := LP64_debug) example_heap
                           example_policy old example_world))).
    reflexivity.
  - apply (proj2 (proj2 (spec_agrees_with_next_gen (cfg := LP64_debug) example_heap
                           example_policy misleveled example_world))); discriminate.
Defined.

Lemma compaction_needs_a_chain_that_ends_witness :
  prepare_for_compaction cyclic_runtime 5 young 4000 example_world = OutOfFuel
  /\ compact cyclic_runtime 5 young example_world = OutOfFuel.
Proof.
  apply (compaction_needs_a_chain_that_ends cyclic_runtime young 4000 5 example_world).
  - discriminate.
  - reflexivity.
  - intros w0. eexists. reflexivity.
  - intros w0. eexists. reflexivity.
Defined.

(** Each of the three iterators has visited the three spaces of the young
    generation. *)
Example iterators_count_three_spaces :
  exists w1 : World,
    oop_iterate counting_iterators young 4000 example_world = Done (tt, w1)
    /\ mem w1 4000 = 3.
Proof. eexists. split; reflexivity. Qed.

(** ** Construction followed by [ref_processor_init] *)

Section Construction.
Context {cfg : VMConfig}.
Variable rt : Runtime.

Lemma new_Generation_members cls rs initial_size lvl w g w' :
  new_Generation rt cls rs initial_size lvl w = Done (g, w') ->
  _level g = lvl /\ _ref_processor g = NULL /\ impl g = cls.
Proof.
  unfold new_Generation.
  destruct (VirtualSpace_initialize rt rs initial_size) as [vs |]; [| discriminate].
  unfold bind, ret.
  destruct ((if ZapUnusedHeapArea
             then mangle_region rt {| start := low vs; end_ := high vs |}
             else fun w0 => Done (tt, w0)) w) as [[u w1] | msg |];
    [| discriminate | discriminate].
  intros H. injection H as <- _. repeat split.
Qed.

(** X19.  A generation fresh from its constructor has the level and the
    dynamic type it was constructed with and no reference processor; so, its
    reserved region not being empty, the first [ref_processor_init] passes
    both assertions and installs whatever non-null processor the allocation
    yields. *)
Theorem fresh_generation_accepts_ref_processor
        (cls : GenerationImpl) (rs : ReservedSpace) (initial_size : N) (lvl : Z)
        (w w0 w1 : World) (g0 : Generation) (rp : Z) :
  new_Generation rt cls rs initial_size lvl w = Done (g0, w0) ->
  is_empty (_reserved g0) = false ->
  new_ReferenceProcessor rt (_reserved g0) w0 = Done (rp, w1) ->
  rp <> NULL ->
  _level g0 = lvl /\ impl g0 = cls /\ _ref_processor g0 = NULL
  /\ exists g1 : Generation,
       ref_processor_init rt g0 w0 = Done (g1, w1)
       /\ _ref_processor g1 = rp
       /\ _reserved g1 = _reserved g0.
Proof.
  intros Hnew Hnonempty Halloc Hrp.
  destruct (new_Generation_members _ _ _ _ _ _ _ Hnew) as [Hl [Hnull Hcls]].
  split; [exact Hl | split; [exact Hcls | split; [exact Hnull |]]].
  exists {| _level := _level g0; _ref_processor := rp;
            _virtual_space := _virtual_space g0; _reserved := _reserved g0;
            impl := impl g0 |}.
  split; [| split; reflexivity].
  unfold ref_processor_init.
  erewrite bind_Done.
  2:{ apply assert_holds. right. rewrite Hnull. reflexivity. }
  erewrite bind_Done.
  2:{ apply assert_holds. right. rewrite Hnonempty. reflexivity. }
  rewrite (bind_Done _ Halloc).
  destruct (Z.eqb_spec rp NULL); [contradiction | reflexivity].
Qed.
End Construction.

Lemma fresh_generation_accepts_ref_processor_witness :
  _level constructed_young = 0 /\ impl constructed_young = young_impl
  /\ _ref_processor constructed_young = NULL
  /\ exists g1 : Generation,
       ref_processor_init (cfg := LP64_debug) example_runtime constructed_young example_world
       = Done (g1, example_world)
       /\ _ref_processor g1 = 4096
       /\ _reserved g1 = _reserved constructed_young.
Proof.
  apply (fresh_generation_accepts_ref_processor (cfg := LP64_debug) example_runtime
           young_impl {| base := 64; rs_size := 192 |} 64 0
           example_world example_world example_world constructed_young 4096).
  - reflexivity.
  - vm_compute. reflexivity.
  - reflexivity.
  - discriminate.
Defined.
